(** * NQubitALU: a ripple-carry adder/subtractor built from reversible gates

    Shallow embedding of [NQubitALU.py].  The Python program builds a qiskit
    circuit; here a circuit is the ordered list of instructions it holds, the
    circuit-building methods run in a small state-and-exception monad over
    that list, and instructions are given their meaning on computational
    basis states (one boolean per qubit). *)

From Stdlib Require Import Bool.
From stdpp Require Import base decidable option strings functions list.

Set Default Proof Using "Type".

(** ** Registers and qubits *)

(** [qiskit.QuantumRegister(size, name)].  Two registers are equal when name
    and size agree; a qubit is a register together with an offset. *)
Record QuantumRegister := {
  reg_size : nat;
  reg_name : string
}.

#[global] Instance QuantumRegister_eq_dec : EqDecision QuantumRegister.
Proof. solve_decision. Defined.

Definition Qubit : Type := QuantumRegister * nat.

(** ** Exceptions *)

Inductive Exception :=
| AttributeError (msg : string)
| IndexError
| CircuitError.

#[global] Instance Exception_eq_dec : EqDecision Exception.
Proof. solve_decision. Defined.

Inductive Result (A : Type) :=
| Ok (a : A)
| Raise (e : Exception).
Arguments Ok {A} a.
Arguments Raise {A} e.

(** ** Instructions *)

(** The primitive operations the program uses, over a wire type [Q]:
    [qc.x], [qc.cx], [qc.ccx], [qc.swap], [qc.reset]. *)
Inductive Op (Q : Type) :=
| XGate (q : Q)
| CXGate (c t : Q)
| CCXGate (c1 c2 t : Q)
| SwapGate (a b : Q)
| Reset (q : Q).
Arguments XGate {Q} q.
Arguments CXGate {Q} c t.
Arguments CCXGate {Q} c1 c2 t.
Arguments SwapGate {Q} a b.
Arguments Reset {Q} q.

(** The two [qiskit.circuit.Gate] subclasses of the file. *)
Inductive Gate := HalfAdder | FullAdder.

(** [super().__init__('halfAdder', 4, [])] and [super().__init__('fullAdder', 8, [])]. *)
Definition gate_name (g : Gate) : string :=
  match g with
  | HalfAdder => "halfAdder"
  | FullAdder => "fullAdder"
  end.

Definition num_qubits (g : Gate) : nat :=
  match g with
  | HalfAdder => 4
  | FullAdder => 8
  end.

(** [HalfAdder._define]: the operations appended to the 4-qubit circuit [qc],
    wires named by their index in [q]. *)
Definition HalfAdder_define : list (Op nat) :=
  [ CXGate 0 2;
    CXGate 1 2;
    CCXGate 0 1 3 ].

(** [FullAdder._define], over the 8-qubit register [q]:
    (a, b, cin, cout, sum, ancilla1, ancilla2, ancilla3) = q[0..7]. *)
Definition FullAdder_define : list (Op nat) :=
  [ CXGate 0 5;
    CXGate 1 5;
    CXGate 2 4;
    CXGate 5 4;
    CCXGate 0 1 6;
    CCXGate 2 5 7;
    CXGate 7 3;
    CXGate 6 3;
    CCXGate 7 6 3 ].

Definition definition (g : Gate) : list (Op nat) :=
  match g with
  | HalfAdder => HalfAdder_define
  | FullAdder => FullAdder_define
  end.

(** An entry of a circuit's data: a primitive operation on qubits, or a gate
    bound to the qubits it was appended on. *)
Inductive Instruction :=
| Prim (o : Op Qubit)
| Call (g : Gate) (qargs : list Qubit).

(** ** The circuit-building monad

    A method of [QuantumCircuit] mutates the circuit's data and may raise;
    what was appended before an exception stays appended. *)
Definition QC (A : Type) : Type := list Instruction → Result A * list Instruction.

#[global] Instance QC_ret : MRet QC := λ A a d, (Ok a, d).

#[global] Instance QC_bind : MBind QC := λ A B f m d,
  match m d with
  | (Ok a, d') => f a d'
  | (Raise e, d') => (Raise e, d')
  end.

Definition raise {A} (e : Exception) : QC A := λ d, (Raise e, d).

Definition push (i : Instruction) : QC unit := λ d, (Ok (), d ++ [i]).

(** A Python [for] loop over a list. *)
Fixpoint for_ {A} (l : list A) (body : A → QC unit) : QC unit :=
  match l with
  | [] => mret ()
  | a :: l' => body a ;; for_ l' body
  end.

(** [register[i]]: a Python list index, [IndexError] out of range (the
    program never uses a negative index). *)
Definition getitem (r : QuantumRegister) (i : nat) : QC Qubit :=
  if decide (i < reg_size r) then mret (r, i) else raise IndexError.

(** An argument of [append]: one qubit, or a whole register. *)
Inductive QArg :=
| QBit (q : Qubit)
| QReg (r : QuantumRegister).

Definition qbit_argument_conversion (a : QArg) : list Qubit :=
  match a with
  | QBit q => [q]
  | QReg r => (λ i, (r, i)) <$> seq 0 (reg_size r)
  end.

(** Python's [zip] over the argument lists, all of one common length [n]. *)
Definition zip_args (n : nat) (qargs : list (list Qubit)) : list (list Qubit) :=
  (λ k, omap (λ a, a !! k) qargs) <$> seq 0 n.

(** [Gate.broadcast_arguments] for a gate of three or more qubits: the number
    of arguments must be the gate's arity, no argument may be empty, and all
    arguments must have the same length. *)
Definition broadcast_arguments (g : Gate) (qargs : list (list Qubit))
  : Result (list (list Qubit)) :=
  if negb (length qargs =? num_qubits g) then Raise CircuitError
  else if existsb (λ a, length a =? 0) qargs then Raise CircuitError
  else
    let n := length (default [] (head qargs)) in
    if forallb (λ a, length a =? n) qargs then Ok (zip_args n qargs)
    else Raise CircuitError.

(** [QuantumCircuit._append] refuses duplicate qubit arguments. *)
Definition _check_dups (qargs : list Qubit) : QC unit :=
  if bool_decide (NoDup qargs) then mret () else raise CircuitError.

(** [QuantumCircuit.append(gate, qargs)]. *)
Definition append (g : Gate) (qargs : list QArg) : QC unit :=
  match broadcast_arguments g (qbit_argument_conversion <$> qargs) with
  | Raise e => raise e
  | Ok qargss => for_ qargss (λ qs, _check_dups qs ;; push (Call g qs))
  end.

Definition x (q : Qubit) : QC unit := push (Prim (XGate q)).

Definition cx (c t : Qubit) : QC unit :=
  _check_dups [c; t] ;; push (Prim (CXGate c t)).

Definition ccx (c1 c2 t : Qubit) : QC unit :=
  _check_dups [c1; c2; t] ;; push (Prim (CCXGate c1 c2 t)).

Definition swap (a b : Qubit) : QC unit :=
  _check_dups [a; b] ;; push (Prim (SwapGate a b)).

(** [reset(qubits)]: one reset per listed qubit. *)
Definition reset (qubits : list Qubit) : QC unit :=
  for_ qubits (λ q, push (Prim (Reset q))).

(** ** The N-qubit ALU *)

(** The fields of an [NQubitALU] object that the program reads or writes.
    [_data] is the circuit data of [BlueprintCircuit]: [None] until the
    circuit is built. *)
Record NQubitALU := {
  registerA : QuantumRegister;
  registerB : QuantumRegister;
  registerS : QuantumRegister;
  registerSB : QuantumRegister;
  registerC : QuantumRegister;
  registerAncilla : QuantumRegister;
  _num_qubits : option nat;
  _data : option (list Instruction)
}.

Definition set_data (d : option (list Instruction)) (self : NQubitALU) : NQubitALU :=
  {| registerA := registerA self; registerB := registerB self;
     registerS := registerS self; registerSB := registerSB self;
     registerC := registerC self; registerAncilla := registerAncilla self;
     _num_qubits := _num_qubits self; _data := d |}.

Definition set_num_qubits (n : option nat) (self : NQubitALU) : NQubitALU :=
  {| registerA := registerA self; registerB := registerB self;
     registerS := registerS self; registerSB := registerSB self;
     registerC := registerC self; registerAncilla := registerAncilla self;
     _num_qubits := n; _data := _data self |}.

(** [BlueprintCircuit._invalidate]: forget the built data. *)
Definition _invalidate (self : NQubitALU) : NQubitALU := set_data None self.

(** [_reset_registers] re-assigns [qregs] from the six register fields, which
    invalidates the data once more and changes nothing else modelled here. *)
Definition _reset_registers (self : NQubitALU) : NQubitALU := _invalidate self.

(** The [num_qubits] setter. *)
Definition num_qubits_setter (n : option nat) (self : NQubitALU) : NQubitALU :=
  if bool_decide (_num_qubits self = None ∨ n ≠ _num_qubits self)
  then _reset_registers (set_num_qubits n (_invalidate self))
  else self.

(** [NQubitALU.__init__]: store the registers, set [num_qubits] to the size of
    register A through the setter; the circuit is not built yet. *)
Definition __init__ (registerA registerB registerS registerSB registerC
                     registerAncilla : QuantumRegister) : NQubitALU :=
  num_qubits_setter (Some (reg_size registerA))
    {| registerA := registerA; registerB := registerB; registerS := registerS;
       registerSB := registerSB; registerC := registerC;
       registerAncilla := registerAncilla;
       _num_qubits := None; _data := None |}.

(** [num_ancilla_qubits] and [num_carry_qubits]. *)
Definition num_ancilla_qubits (self : NQubitALU) : nat := 3.

Definition num_carry_qubits (self : NQubitALU) : option nat := _num_qubits self.

(** [_check_configuration(raise_on_failure)]. *)
Definition _check_configuration (raise_on_failure : bool) (self : NQubitALU)
  : Result bool :=
  match _num_qubits self with
  | None =>
      if raise_on_failure
      then Raise (AttributeError "The input register has not been set.")
      else Ok false
  | Some _ => Ok true
  end.

(** The first loop of [_build]: XOR every qubit of B with SB through the first
    ancilla. *)
Definition negate_loop (qr_B qr_SB qr_ancilla : QuantumRegister) : QC unit :=
  for_ (seq 0 (reg_size qr_B)) (λ B_index,
    b ← getitem qr_B B_index; a0 ← getitem qr_ancilla 0;
    cx b a0 ;;
    sb ← getitem qr_SB 0; a0 ← getitem qr_ancilla 0;
    cx sb a0 ;;
    b ← getitem qr_B B_index; a0 ← getitem qr_ancilla 0;
    swap b a0 ;;
    a0 ← getitem qr_ancilla 0;
    reset (replicate 1 a0)).

(** The second loop of [_build]: one full adder per bit, carry chained, the
    three ancillas reset after each.  In the first iteration the carry-in
    argument is the register [qr_SB] itself, not one of its qubits.  The
    [print] calls are left out; the one of the [else] branch indexes the same
    registers at the same offsets as the [append] after it. *)
Definition adder_loop (qr_A qr_B qr_S qr_SB qr_carry qr_ancilla : QuantumRegister)
  : QC unit :=
  for_ (seq 0 (reg_size qr_A)) (λ A_index,
    if A_index =? 0 then
      a ← getitem qr_A A_index; b ← getitem qr_B A_index;
      c ← getitem qr_carry A_index; s ← getitem qr_S A_index;
      a0 ← getitem qr_ancilla 0; a1 ← getitem qr_ancilla 1;
      a2 ← getitem qr_ancilla 2;
      append FullAdder [QBit a; QBit b; QReg qr_SB; QBit c; QBit s;
                        QBit a0; QBit a1; QBit a2] ;;
      a0 ← getitem qr_ancilla 0; reset (replicate 1 a0) ;;
      a1 ← getitem qr_ancilla 1; reset (replicate 1 a1) ;;
      a2 ← getitem qr_ancilla 2; reset (replicate 1 a2)
    else
      a ← getitem qr_A A_index; b ← getitem qr_B A_index;
      cin ← getitem qr_carry (A_index - 1); c ← getitem qr_carry A_index;
      s ← getitem qr_S A_index;
      a0 ← getitem qr_ancilla 0; a1 ← getitem qr_ancilla 1;
      a2 ← getitem qr_ancilla 2;
      append FullAdder [QBit a; QBit b; QBit cin; QBit c; QBit s;
                        QBit a0; QBit a1; QBit a2] ;;
      a0 ← getitem qr_ancilla 0; reset (replicate 1 a0) ;;
      a1 ← getitem qr_ancilla 1; reset (replicate 1 a1) ;;
      a2 ← getitem qr_ancilla 2; reset (replicate 1 a2)).

(** [NQubitALU._build].  [super()._build()] returns at once when the data is
    already populated, otherwise sets it to the empty list and calls
    [_check_configuration()]; the body of [_build] then appends to the data in
    either case.  An exception leaves what was appended so far in [self]. *)
Definition _build (self : NQubitALU) : Result unit * NQubitALU :=
  let super_build :=
    match _data self with
    | Some d => (Ok true, d)
    | None => (_check_configuration true self, [])
    end in
  match super_build with
  | (Raise e, d) => (Raise e, set_data (Some d) self)
  | (Ok _, d) =>
      let qr_A := registerA self in
      let qr_B := registerB self in
      let qr_S := registerS self in
      let qr_SB := registerSB self in
      let qr_carry := registerC self in
      let qr_ancilla := registerAncilla self in
      let '(r, d') :=
        (negate_loop qr_B qr_SB qr_ancilla ;;
         adder_loop qr_A qr_B qr_S qr_SB qr_carry qr_ancilla) d in
      (r, set_data (Some d') self)
  end.

(** ** Execution on basis states *)

(** One boolean per qubit. *)
Abbreviation State := (Qubit → bool).

(** The action of a primitive operation on a basis state: [x] inverts its
    target, [cx] and [ccx] invert it when all controls are set, [swap]
    exchanges two wires and [reset] returns a wire to 0. *)
Definition apply_op {Q} `{EqDecision Q} (o : Op Q) (st : Q → bool) : Q → bool :=
  match o with
  | XGate q => <[q := negb (st q)]> st
  | CXGate c t => <[t := xorb (st t) (st c)]> st
  | CCXGate c1 c2 t => <[t := xorb (st t) (st c1 && st c2)]> st
  | SwapGate a b => <[a := st b]> (<[b := st a]> st)
  | Reset q => <[q := false]> st
  end.

Definition run_ops {Q} `{EqDecision Q} (ops : list (Op Q)) (st : Q → bool) : Q → bool :=
  foldl (λ s o, apply_op o s) st ops.

(** Binding a gate definition to the qubits it is appended on: slot [i] of the
    definition becomes [qargs[i]]. *)
Definition bind_op (qargs : list Qubit) (o : Op nat) : option (Op Qubit) :=
  match o with
  | XGate q => XGate <$> qargs !! q
  | CXGate c t => c' ← qargs !! c; t' ← qargs !! t; Some (CXGate c' t')
  | CCXGate c1 c2 t =>
      c1' ← qargs !! c1; c2' ← qargs !! c2; t' ← qargs !! t;
      Some (CCXGate c1' c2' t')
  | SwapGate a b => a' ← qargs !! a; b' ← qargs !! b; Some (SwapGate a' b')
  | Reset q => Reset <$> qargs !! q
  end.

(** The flattened sequence of primitive operations of a program. *)
Definition decompose_instruction (i : Instruction) : option (list (Op Qubit)) :=
  match i with
  | Prim o => Some [o]
  | Call g qargs => mapM (bind_op qargs) (definition g)
  end.

Definition decompose (p : list Instruction) : option (list (Op Qubit)) :=
  (λ opss, concat opss) <$> mapM decompose_instruction p.

Definition run (p : list Instruction) (st : State) : option State :=
  (λ ops, run_ops ops st) <$> decompose p.

(** The qubits an operation writes. *)
Definition targets {Q} (o : Op Q) : list Q :=
  match o with
  | XGate q => [q]
  | CXGate _ t => [t]
  | CCXGate _ _ t => [t]
  | SwapGate a b => [a; b]
  | Reset q => [q]
  end.

(** ** The driver *)

(** The circuit of [__main__]: [x] on [registerA[0]] and [registerB[0]], the
    line [circuit.x(registerSB[0])] (commented out in the source) when
    [negate] is set, then the built ALU appended on its own qubits. *)
Definition main_circuit (negate : bool)
    (registerA registerB registerS registerSB registerC registerAnc : QuantumRegister)
  : Result (list Instruction) :=
  let init : QC unit :=
    (a ← getitem registerA 0; x a) ;;
    (b ← getitem registerB 0; x b) ;;
    (if negate then sb ← getitem registerSB 0; x sb else mret ()) in
  match init [] with
  | (Raise e, _) => Raise e
  | (Ok _, d) =>
      match _build (__init__ registerA registerB registerS registerSB registerC
                             registerAnc) with
      | (Raise e, _) => Raise e
      | (Ok _, alu) => Ok (d ++ default [] (_data alu))
      end
  end.

(** The registers of [__main__] for [N = 3], under the names qiskit gives to
    unnamed registers. *)
Definition main_registerA := {| reg_size := 3; reg_name := "q0" |}.
Definition main_registerB := {| reg_size := 3; reg_name := "q1" |}.
Definition main_registerS := {| reg_size := 3; reg_name := "q2" |}.
Definition main_registerSB := {| reg_size := 1; reg_name := "q3" |}.
Definition main_registerC := {| reg_size := 3; reg_name := "q4" |}.
Definition main_registerAnc := {| reg_size := 3; reg_name := "q5" |}.

(** [flat_regs] of [__main__]: the qubits of the registers, in order.  The
    ALU is appended on them, each of its qubits on itself. *)
Definition flat_regs (regs : list QuantumRegister) : list Qubit :=
  regs ≫= λ r, (λ i, (r, i)) <$> seq 0 (reg_size r).

(** Every qubit starts in state 0. *)
Definition zero_state : State := λ _, false.

(** The bits of a register in a state, offset 0 first. *)
Definition read (st : State) (r : QuantumRegister) : list bool :=
  (λ i, st (r, i)) <$> seq 0 (reg_size r).

(** Majority of three bits, the carry of a full adder. *)
Definition majority (a b c : bool) : bool := (a && b) || (a && c) || (b && c).

(** ** Descriptions of the built program *)

(** The instructions one iteration of the first loop appends. *)
Definition negate_bit (qr_B qr_SB qr_ancilla : QuantumRegister) (i : nat)
  : list Instruction :=
  [ Prim (CXGate (qr_B, i) (qr_ancilla, 0));
    Prim (CXGate (qr_SB, 0) (qr_ancilla, 0));
    Prim (SwapGate (qr_B, i) (qr_ancilla, 0));
    Prim (Reset (qr_ancilla, 0)) ].

Definition negate_program (qr_B qr_SB qr_ancilla : QuantumRegister)
  : list Instruction :=
  concat (negate_bit qr_B qr_SB qr_ancilla <$> seq 0 (reg_size qr_B)).

(** The carry-in wire of stage [i]. *)
Definition carry_in (qr_SB qr_carry : QuantumRegister) (i : nat) : Qubit :=
  if i =? 0 then (qr_SB, 0) else (qr_carry, i - 1).

(** The instructions one iteration of the second loop appends. *)
Definition adder_stage (qr_A qr_B qr_S qr_SB qr_carry qr_ancilla : QuantumRegister)
    (i : nat) : list Instruction :=
  [ Call FullAdder [ (qr_A, i); (qr_B, i); carry_in qr_SB qr_carry i;
                     (qr_carry, i); (qr_S, i);
                     (qr_ancilla, 0); (qr_ancilla, 1); (qr_ancilla, 2) ];
    Prim (Reset (qr_ancilla, 0));
    Prim (Reset (qr_ancilla, 1));
    Prim (Reset (qr_ancilla, 2)) ].

Definition adder_program (qr_A qr_B qr_S qr_SB qr_carry qr_ancilla : QuantumRegister)
  : list Instruction :=
  concat (adder_stage qr_A qr_B qr_S qr_SB qr_carry qr_ancilla
            <$> seq 0 (reg_size qr_A)).

(** The register widths with which [_build] runs to completion. *)
Definition widths_ok (qr_A qr_B qr_S qr_SB qr_carry qr_ancilla : QuantumRegister)
  : Prop :=
  (reg_size qr_B = 0 ∨ (0 < reg_size qr_SB ∧ 0 < reg_size qr_ancilla)) ∧
  (reg_size qr_A = 0 ∨
   (reg_size qr_A ≤ reg_size qr_B ∧ reg_size qr_A ≤ reg_size qr_S ∧
    reg_size qr_A ≤ reg_size qr_carry ∧ reg_size qr_SB = 1 ∧
    3 ≤ reg_size qr_ancilla)).

(** The number of iterations of the second loop of [_build] that run to
    completion: none when the arguments of the first full adder are refused,
    otherwise as many as A, B, S and the carry register all have qubits. *)
Definition stages_done (qr_A qr_B qr_S qr_SB qr_carry qr_ancilla : QuantumRegister)
  : nat :=
  if decide (0 < reg_size qr_B ∧ 0 < reg_size qr_S ∧ 0 < reg_size qr_carry ∧
             reg_size qr_SB = 1 ∧ 3 ≤ reg_size qr_ancilla)
  then Nat.min (reg_size qr_A)
         (Nat.min (reg_size qr_B) (Nat.min (reg_size qr_S) (reg_size qr_carry)))
  else 0.

(** What [_build] has appended when it stops at the first register index out
    of range or the first refused gate argument: nothing when the first
    [qr_ancilla[0]] fails, the first [cx] alone when [qr_SB[0]] fails, and
    otherwise the whole first loop and the completed iterations of the
    second. *)
Definition appended_before_failure
    (qr_A qr_B qr_S qr_SB qr_carry qr_ancilla : QuantumRegister) : list Instruction :=
  if decide (0 < reg_size qr_B ∧ reg_size qr_ancilla = 0) then []
  else if decide (0 < reg_size qr_B ∧ reg_size qr_SB = 0) then
    [Prim (CXGate (qr_B, 0) (qr_ancilla, 0))]
  else
    negate_program qr_B qr_SB qr_ancilla
    ++ concat (adder_stage qr_A qr_B qr_S qr_SB qr_carry qr_ancilla
                 <$> seq 0 (stages_done qr_A qr_B qr_S qr_SB qr_carry qr_ancilla)).

(** The exceptions raised inside qiskit rather than by the file itself. *)
Definition library_error (e : Exception) : Prop :=
  e = IndexError ∨ e = CircuitError.

(** A computation that raises from every circuit data. *)
Definition always_raises {A} (m : QC A) : Prop :=
  ∀ d, ∃ e d', m d = (Raise e, d').

(** A computation that raises only exceptions satisfying [P]. *)
Definition raises_only {A} (P : Exception → Prop) (m : QC A) : Prop :=
  ∀ d e d', m d = (Raise e, d') → P e.

(** A computation that, when it returns, returns [v] having appended exactly
    [l], and that, when it raises, has appended a prefix of [l]. *)
Definition yields {A} (m : QC A) (v : A) (l : list Instruction) : Prop :=
  ∀ d, match m d with
       | (Ok a, d') => a = v ∧ d' = d ++ l
       | (Raise _, d') => ∃ l', d' = d ++ l' ∧ l' `prefix_of` l
       end.

(** The state of the bound qubits, seen from the slots of the definition. *)
Definition local_state (qargs : list Qubit) (st : State) : nat → bool :=
  λ i, from_option st false (qargs !! i).

(** The primitive operations of one iteration of the first loop. *)
Definition negate_bit_ops (qr_B qr_SB qr_ancilla : QuantumRegister) (i : nat)
  : list (Op Qubit) :=
  [ CXGate (qr_B, i) (qr_ancilla, 0);
    CXGate (qr_SB, 0) (qr_ancilla, 0);
    SwapGate (qr_B, i) (qr_ancilla, 0);
    Reset (qr_ancilla, 0) ].

(** The primitive operations of one iteration of the second loop. *)
Definition adder_stage_ops (qr_A qr_B qr_S qr_SB qr_carry qr_ancilla : QuantumRegister)
    (i : nat) : list (Op Qubit) :=
  let cin := carry_in qr_SB qr_carry i in
  [ CXGate (qr_A, i) (qr_ancilla, 0);
    CXGate (qr_B, i) (qr_ancilla, 0);
    CXGate cin (qr_S, i);
    CXGate (qr_ancilla, 0) (qr_S, i);
    CCXGate (qr_A, i) (qr_B, i) (qr_ancilla, 1);
    CCXGate cin (qr_ancilla, 0) (qr_ancilla, 2);
    CXGate (qr_ancilla, 2) (qr_carry, i);
    CXGate (qr_ancilla, 1) (qr_carry, i);
    CCXGate (qr_ancilla, 2) (qr_ancilla, 1) (qr_carry, i);
    Reset (qr_ancilla, 0);
    Reset (qr_ancilla, 1);
    Reset (qr_ancilla, 2) ].

(** The slot of a qubit in a list of qubits, and an operation read on slots. *)
Definition slot_of (qubits : list Qubit) (q : Qubit) : option nat :=
  fst <$> list_find (λ q', q' = q) qubits.

Definition slot_op (qubits : list Qubit) (o : Op Qubit) : option (Op nat) :=
  match o with
  | XGate q => XGate <$> slot_of qubits q
  | CXGate c t => c' ← slot_of qubits c; t' ← slot_of qubits t; Some (CXGate c' t')
  | CCXGate c1 c2 t =>
      c1' ← slot_of qubits c1; c2' ← slot_of qubits c2; t' ← slot_of qubits t;
      Some (CCXGate c1' c2' t')
  | SwapGate a b => a' ← slot_of qubits a; b' ← slot_of qubits b; Some (SwapGate a' b')
  | Reset q => Reset <$> slot_of qubits q
  end.

(** The flattened program of [__main__] for [N = 3] on the sixteen slots of
    [flat_regs]: A on 0-2, B on 3-5, S on 6-8, SB on 9, C on 10-12 and the
    ancillas on 13-15. *)
Definition main_slots (negate : bool) : list (Op nat) :=
  Eval vm_compute in
  match main_circuit negate main_registerA main_registerB main_registerS
          main_registerSB main_registerC main_registerAnc with
  | Ok p =>
      default []
        (decompose p
           ≫= mapM (slot_op (flat_regs [main_registerA; main_registerB;
                                         main_registerS; main_registerSB;
                                         main_registerC; main_registerAnc])))
  | Raise _ => []
  end.

(** The register [q] of a gate's [_define]. *)
Definition define_register (g : Gate) : QuantumRegister :=
  {| reg_size := num_qubits g; reg_name := "q" |}.

(** Registers for an ALU on one bit whose B, carry and ancilla registers are
    wider than needed. *)
Definition wide_registerA := {| reg_size := 1; reg_name := "a" |}.
Definition wide_registerB := {| reg_size := 2; reg_name := "b" |}.
Definition wide_registerS := {| reg_size := 1; reg_name := "s" |}.
Definition wide_registerSB := {| reg_size := 1; reg_name := "sb" |}.
Definition wide_registerC := {| reg_size := 3; reg_name := "c" |}.
Definition wide_registerAnc := {| reg_size := 4; reg_name := "anc" |}.

(** Registers for an ALU on two bits whose B register has one qubit only. *)
Definition short_registerA := {| reg_size := 2; reg_name := "a" |}.
Definition short_registerB := {| reg_size := 1; reg_name := "b" |}.

(** ** Ripple-carry arithmetic on bits *)

(** The carry into bit [i] of the sum of the bit sequences [a] and [b] with
    carry-in [c0], and the sum bit at [i]. *)
Fixpoint carry_bit (a b : nat → bool) (c0 : bool) (i : nat) : bool :=
  match i with
  | 0 => c0
  | S j => majority (a j) (b j) (carry_bit a b c0 j)
  end.

Definition sum_bit (a b : nat → bool) (c0 : bool) (i : nat) : bool :=
  xorb (xorb (a i) (b i)) (carry_bit a b c0 i).

(** The number a list of bits stands for, least significant bit first. *)
Fixpoint bits_value (l : list bool) : nat :=
  match l with
  | [] => 0
  | b :: l' => Nat.b2n b + 2 * bits_value l'
  end.

(** The bits of register A, of register B after the conditional negation, and
    the carry-in, as the adder stages see them from the entry state [st]. *)
Definition operand_A (st : State) (qr_A : QuantumRegister) : nat → bool :=
  λ i, st (qr_A, i).

Definition operand_B (st : State) (qr_B qr_SB : QuantumRegister) : nat → bool :=
  λ i, xorb (st (qr_B, i)) (st (qr_SB, 0)).

(** ** The full adder on eight qubits *)

(** The operations of the full adder bound to eight qubits. *)
Definition FullAdder_ops (a b cin cout sum s1 s2 s3 : Qubit) : list (Op Qubit) :=
  [ CXGate a s1; CXGate b s1; CXGate cin sum; CXGate s1 sum;
    CCXGate a b s2; CCXGate cin s1 s3;
    CXGate s3 cout; CXGate s2 cout; CCXGate s3 s2 cout ].

(** ** The two-qubit ALU *)

(** An integer qubit argument of a circuit method: the qubit at that position
    of the circuit ([CircuitError] out of range). *)
Definition qubit_at (q : QuantumRegister) (i : nat) : QC Qubit :=
  if decide (i < reg_size q) then mret (q, i) else raise CircuitError.

Fixpoint qubits_at (q : QuantumRegister) (l : list nat) : QC (list Qubit) :=
  match l with
  | [] => mret []
  | i :: l' => x ← qubit_at q i; xs ← qubits_at q l'; mret (x :: xs)
  end.

(** The list comprehension [[q[i] for i in l]]. *)
Fixpoint getitems (q : QuantumRegister) (l : list nat) : QC (list Qubit) :=
  match l with
  | [] => mret []
  | i :: l' => x ← getitem q i; xs ← getitems q l'; mret (x :: xs)
  end.

(** What [TwoQubitALU(num_qubits)] does: a [CircuitError] of the circuit
    constructor it calls first, a [ValueError] of its own, or a circuit built
    by the circuit methods. *)
Inductive TwoQubitALU_outcome :=
| TwoQubitALU_CircuitError
| TwoQubitALU_ValueError (msg : string)
| TwoQubitALU_circuit (r : Result unit) (data : list Instruction).

(** The circuit operations of [TwoQubitALU.__init__], on its register [q]:
    (a0, a1, b0, b1, s0, s1, c0, c1, sb, ancilla1, ancilla2, ancilla3). *)
Definition TwoQubitALU_body (q : QuantumRegister) : QC unit :=
  (c ← qubit_at q 2; t ← qubit_at q 9; cx c t) ;;
  (c ← qubit_at q 8; t ← qubit_at q 9; cx c t) ;;
  (a ← qubit_at q 2; b ← qubit_at q 9; swap a b) ;;
  (qs ← qubits_at q (replicate 10 9); reset qs) ;;
  (c ← qubit_at q 3; t ← qubit_at q 10; cx c t) ;;
  (c ← qubit_at q 8; t ← qubit_at q 10; cx c t) ;;
  (a ← qubit_at q 3; b ← qubit_at q 10; swap a b) ;;
  (qs ← qubits_at q (replicate 10 10); reset qs) ;;
  (qs ← getitems q [0; 2; 8; 6; 4; 9; 10; 11]; append FullAdder (QBit <$> qs)) ;;
  (qs ← qubits_at q (replicate 10 9); reset qs) ;;
  (qs ← qubits_at q (replicate 10 10); reset qs) ;;
  (qs ← qubits_at q (replicate 10 11); reset qs) ;;
  (qs ← getitems q [1; 3; 6; 7; 5; 9; 10; 11]; append FullAdder (QBit <$> qs)) ;;
  (qs ← qubits_at q (replicate 10 9); reset qs) ;;
  (qs ← qubits_at q (replicate 10 10); reset qs) ;;
  (qs ← qubits_at q (replicate 10 11); reset qs).

(** [TwoQubitALU.__init__]: [super().__init__(num_qubits)] comes first and
    gives the circuit one register [q] of [num_qubits] qubits, which qiskit
    refuses with a [CircuitError] when it would have no qubit; then any number
    other than 12 is refused. *)
Definition TwoQubitALU (num_qubits : nat) : TwoQubitALU_outcome :=
  let q := {| reg_size := num_qubits; reg_name := "q" |} in
  if bool_decide (num_qubits = 0) then TwoQubitALU_CircuitError
  else if bool_decide (num_qubits ≠ 12) then
    TwoQubitALU_ValueError "ALU(2) requires 13 bits"
  else
    let '(r, d) := TwoQubitALU_body q [] in TwoQubitALU_circuit r d.

(** The register of a built [TwoQubitALU] and its twelve qubits. *)
Definition TwoQubitALU_q : QuantumRegister := {| reg_size := 12; reg_name := "q" |}.

(** The flattened program of [TwoQubitALU(12)] on the positions of its qubits. *)
Definition TwoQubitALU_slots : list (Op nat) :=
  Eval vm_compute in
  match TwoQubitALU 12 with
  | TwoQubitALU_circuit (Ok _) p =>
      default [] (decompose p ≫= mapM (slot_op (flat_regs [TwoQubitALU_q])))
  | _ => []
  end.

(** A state of wires given by a list of bits, 0 beyond the list. *)
Definition wires_of (l : list bool) : nat → bool := λ i, default false (l !! i).

(** ** What [__main__] prints *)

(** [circuit.measure(range(n), range(n))] on a basis state: classical bit [i]
    holds the qubit at position [i] of the circuit. *)
Definition measure_all (st : State) (qubits : list Qubit) : list bool :=
  st <$> qubits.

(** The key of that outcome in the counts: one character per classical bit,
    the last bit first. *)
Definition bit_string (b : bool) : string := if b then "1" else "0".

Definition bits_string (l : list bool) : string :=
  foldr (λ b s, String.append (bit_string b) s) EmptyString l.

Definition counts_key (clbits : list bool) : string :=
  bits_string (reverse clbits).

(** A Python slice [s[i:j]] of a string, for [0 <= i] and [0 <= j]. *)
Definition slice (i j : nat) (s : string) : string := String.substring i (j - i) s.

(** The text [__main__] prints as the sum:
    [counts.most_frequent()[(4+N):(4+2*N)]], the only outcome being that of
    the final state. *)
Definition main_printed_sum (N : nat) (st : State) (regs : list QuantumRegister)
  : string :=
  slice (4 + N) (4 + 2 * N) (counts_key (measure_all st (flat_regs regs))).

(** * Properties *)

(** ** The monad *)

Lemma bind_ok {A B} (m : QC A) (f : A → QC B) d a d' :
  m d = (Ok a, d') → (m ≫= f) d = f a d'.
Proof. unfold mbind, QC_bind. by intros ->. Qed.

Lemma bind_raise {A B} (m : QC A) (f : A → QC B) d e d' :
  m d = (Raise e, d') → (m ≫= f) d = (Raise e, d').
Proof. unfold mbind, QC_bind. by intros ->. Qed.

Lemma getitem_ok r i : i < reg_size r → getitem r i = mret (r, i).
Proof. intros. unfold getitem. by case_decide. Qed.

Lemma getitem_raise r i : reg_size r ≤ i → getitem r i = raise IndexError.
Proof. intros. unfold getitem. case_decide; [lia | done]. Qed.

Lemma _check_dups_ok qs : NoDup qs → _check_dups qs = mret ().
Proof. intros. unfold _check_dups. by rewrite bool_decide_eq_true_2. Qed.

Lemma for__ok {A} (l : list A) (body : A → QC unit) (f : A → list Instruction) d :
  (∀ a d, a ∈ l → body a d = (Ok (), d ++ f a)) →
  for_ l body d = (Ok (), d ++ concat (f <$> l)).
Proof.
  revert d. induction l as [|a l IH]; intros d Hbody; simpl.
  - by rewrite app_nil_r.
  - erewrite bind_ok by (apply Hbody; left).
    rewrite IH, <- app_assoc; [done |]. intros ???. apply Hbody. by right.
Qed.

Lemma always_raises_raise {A} e : always_raises (@raise A e).
Proof. intros d. by eexists _, _. Qed.

Lemma always_raises_bind_l {A B} (m : QC A) (f : A → QC B) :
  always_raises m → always_raises (m ≫= f).
Proof. intros H d. destruct (H d) as (e & d' & E). eexists _, _. by eapply bind_raise. Qed.

Lemma always_raises_bind_r {A B} (m : QC A) (f : A → QC B) :
  (∀ a, always_raises (f a)) → always_raises (m ≫= f).
Proof.
  intros H d. unfold mbind, QC_bind. destruct (m d) as [[a|e] d']; [apply H |].
  by eexists _, _.
Qed.

Lemma always_raises_for_ {A} (l : list A) (body : A → QC unit) a :
  a ∈ l → always_raises (body a) → always_raises (for_ l body).
Proof.
  intros Hin Ha. induction l as [|b l IH]; [by apply elem_of_nil in Hin |].
  apply elem_of_cons in Hin as [<- | Hin]; simpl.
  - by apply always_raises_bind_l.
  - apply always_raises_bind_r. intros _. by apply IH.
Qed.

Lemma always_raises_getitem r i : reg_size r ≤ i → always_raises (getitem r i).
Proof. intros. rewrite getitem_raise by done. apply always_raises_raise. Qed.

(** ** The two loops of [_build] *)

Ltac solve_NoDup :=
  repeat (apply NoDup_cons; split;
          [ rewrite ?not_elem_of_cons; repeat split;
            first [ apply not_elem_of_nil | intros [=]; first [congruence | lia] ]
          | ]);
  apply NoDup_nil; done.

(** Symbolic execution of a monadic computation whose register indices are in
    range and whose qubit arguments are distinct. *)
Ltac qc_run :=
  repeat (progress (unfold mbind, QC_bind, mret, QC_ret, push, cx, swap, reset;
                    simpl;
                    rewrite ?getitem_ok by lia;
                    rewrite ?_check_dups_ok by solve_NoDup)).

(** Appending the full adder with the whole SB register as carry-in argument:
    accepted exactly when the register has one qubit. *)
Lemma append_FullAdder_reg a b r c s a0 a1 a2 d :
  reg_size r = 1 → NoDup [a; b; (r, 0); c; s; a0; a1; a2] →
  append FullAdder [QBit a; QBit b; QReg r; QBit c; QBit s; QBit a0; QBit a1; QBit a2] d
  = (Ok (), d ++ [Call FullAdder [a; b; (r, 0); c; s; a0; a1; a2]]).
Proof.
  intros Hr Hnd. unfold append, broadcast_arguments. simpl. rewrite Hr. simpl.
  unfold mbind, QC_bind. by rewrite _check_dups_ok.
Qed.

Lemma append_FullAdder_reg_raises a b r c s a0 a1 a2 :
  reg_size r ≠ 1 →
  always_raises
    (append FullAdder [QBit a; QBit b; QReg r; QBit c; QBit s; QBit a0; QBit a1; QBit a2]).
Proof.
  intros Hr d. unfold append, broadcast_arguments. simpl.
  destruct (reg_size r) as [|[|n]]; [|done|]; by eexists _, _.
Qed.

Lemma append_FullAdder_qubits a b cin c s a0 a1 a2 d :
  NoDup [a; b; cin; c; s; a0; a1; a2] →
  append FullAdder [QBit a; QBit b; QBit cin; QBit c; QBit s; QBit a0; QBit a1; QBit a2] d
  = (Ok (), d ++ [Call FullAdder [a; b; cin; c; s; a0; a1; a2]]).
Proof.
  intros Hnd. unfold append, broadcast_arguments. simpl.
  unfold mbind, QC_bind. by rewrite _check_dups_ok.
Qed.

(** Finds the raising step of a sequence of binds. *)
Ltac find_raise :=
  first
    [ apply always_raises_bind_l;
      first [ apply always_raises_getitem; lia
            | apply append_FullAdder_reg_raises; lia ]
    | apply always_raises_bind_r; intros ?; find_raise ].

Lemma negate_loop_ok qr_B qr_SB qr_ancilla d :
  qr_B ≠ qr_SB → qr_B ≠ qr_ancilla → qr_SB ≠ qr_ancilla →
  reg_size qr_B = 0 ∨ (0 < reg_size qr_SB ∧ 0 < reg_size qr_ancilla) →
  negate_loop qr_B qr_SB qr_ancilla d
  = (Ok (), d ++ negate_program qr_B qr_SB qr_ancilla).
Proof.
  intros ? ? ? Hw. unfold negate_loop, negate_program.
  apply for__ok. intros i d0 Hi%elem_of_seq.
  destruct Hw as [? | [? ?]]; [lia |].
  qc_run. by rewrite <- !app_assoc.
Qed.

Section loops.
Variables qr_A qr_B qr_S qr_SB qr_carry qr_ancilla : QuantumRegister.
Hypothesis distinct : NoDup [qr_A; qr_B; qr_S; qr_SB; qr_carry; qr_ancilla].

Local Lemma distinct_pairs :
  (qr_A ≠ qr_B ∧ qr_A ≠ qr_S ∧ qr_A ≠ qr_SB ∧ qr_A ≠ qr_carry ∧ qr_A ≠ qr_ancilla) ∧
  (qr_B ≠ qr_S ∧ qr_B ≠ qr_SB ∧ qr_B ≠ qr_carry ∧ qr_B ≠ qr_ancilla) ∧
  (qr_S ≠ qr_SB ∧ qr_S ≠ qr_carry ∧ qr_S ≠ qr_ancilla) ∧
  (qr_SB ≠ qr_carry ∧ qr_SB ≠ qr_ancilla) ∧ qr_carry ≠ qr_ancilla.
Proof using distinct.
  pose proof distinct as H.
  rewrite !NoDup_cons, !not_elem_of_cons in H. intuition congruence.
Qed.

Lemma negate_loop_raises :
  0 < reg_size qr_B → reg_size qr_SB = 0 ∨ reg_size qr_ancilla = 0 →
  always_raises (negate_loop qr_B qr_SB qr_ancilla).
Proof.
  intros HB Hw. unfold negate_loop.
  apply always_raises_for_ with (a := 0); [apply elem_of_seq; lia |].
  apply always_raises_bind_r; intros b.
  destruct (decide (reg_size qr_ancilla = 0)).
  - apply always_raises_bind_l, always_raises_getitem. lia.
  - apply always_raises_bind_r; intros a0. apply always_raises_bind_r; intros _.
    apply always_raises_bind_l, always_raises_getitem. lia.
Qed.

Lemma adder_loop_ok d :
  reg_size qr_A = 0 ∨
  (reg_size qr_A ≤ reg_size qr_B ∧ reg_size qr_A ≤ reg_size qr_S ∧
   reg_size qr_A ≤ reg_size qr_carry ∧ reg_size qr_SB = 1 ∧
   3 ≤ reg_size qr_ancilla) →
  adder_loop qr_A qr_B qr_S qr_SB qr_carry qr_ancilla d
  = (Ok (), d ++ adder_program qr_A qr_B qr_S qr_SB qr_carry qr_ancilla).
Proof using distinct.
  intros Hw. unfold adder_loop, adder_program.
  destruct distinct_pairs as ((?&?&?&?&?) & (?&?&?&?) & (?&?&?) & (?&?) & ?).
  apply for__ok. intros i d0 Hi%elem_of_seq.
  destruct Hw as [? | (? & ? & ? & ? & ?)]; [lia |].
  unfold adder_stage, carry_in. destruct (i =? 0) eqn:Ei.
  - apply Nat.eqb_eq in Ei as ->. qc_run.
    rewrite append_FullAdder_reg by (done || solve_NoDup).
    qc_run. by rewrite <- !app_assoc.
  - apply Nat.eqb_neq in Ei. qc_run.
    rewrite (append_FullAdder_qubits _ _ (qr_carry, i - 1)) by solve_NoDup.
    qc_run. by rewrite <- !app_assoc.
Qed.

Lemma adder_loop_raises :
  0 < reg_size qr_A →
  ¬ (reg_size qr_A ≤ reg_size qr_B ∧ reg_size qr_A ≤ reg_size qr_S ∧
     reg_size qr_A ≤ reg_size qr_carry ∧ reg_size qr_SB = 1 ∧
     3 ≤ reg_size qr_ancilla) →
  always_raises (adder_loop qr_A qr_B qr_S qr_SB qr_carry qr_ancilla).
Proof.
  intros HA Hw. unfold adder_loop.
  destruct (decide (reg_size qr_B = 0 ∨ reg_size qr_S = 0 ∨ reg_size qr_carry = 0 ∨
                    reg_size qr_SB ≠ 1 ∨ reg_size qr_ancilla < 3)) as [H0 | H0].
  - apply always_raises_for_ with (a := 0); [apply elem_of_seq; lia |].
    simpl. destruct H0 as [?|[?|[?|[?|?]]]]; find_raise.
  - set (j := Nat.min (Nat.min (reg_size qr_B) (reg_size qr_S)) (reg_size qr_carry)).
    apply always_raises_for_ with (a := j); [apply elem_of_seq; lia |].
    destruct (j =? 0) eqn:Ej; [apply Nat.eqb_eq in Ej; lia |].
    destruct (decide (reg_size qr_B ≤ j)); [find_raise |].
    destruct (decide (reg_size qr_carry ≤ j)); [find_raise |].
    destruct (decide (reg_size qr_S ≤ j)); [find_raise | lia].
Qed.
End loops.

(** ** Which exceptions the loops raise *)

Lemma raises_only_mret {A} P (a : A) : raises_only P (mret a).
Proof. by intros d e d' [=]. Qed.

Lemma raises_only_raise {A} (P : Exception → Prop) e : P e → raises_only P (@raise A e).
Proof. by intros ? d e' d' [= <- _]. Qed.

Lemma raises_only_push P i : raises_only P (push i).
Proof. by intros d e d' [=]. Qed.

Lemma raises_only_bind {A B} P (m : QC A) (f : A → QC B) :
  raises_only P m → (∀ a, raises_only P (f a)) → raises_only P (m ≫= f).
Proof.
  intros Hm Hf d e d''. unfold mbind, QC_bind.
  destruct (m d) as [[a|e'] d'] eqn:E; [apply Hf |].
  intros [= <- _]. by eapply Hm.
Qed.

Lemma raises_only_for_ {A} P (l : list A) (body : A → QC unit) :
  (∀ a, raises_only P (body a)) → raises_only P (for_ l body).
Proof.
  intros Hb. induction l as [|a l IH]; simpl; [apply raises_only_mret|].
  apply raises_only_bind; [apply Hb | intros _; apply IH].
Qed.

Lemma raises_only_getitem r i : raises_only library_error (getitem r i).
Proof.
  unfold getitem. case_decide; [apply raises_only_mret |].
  apply raises_only_raise. by left.
Qed.

Lemma raises_only__check_dups qs : raises_only library_error (_check_dups qs).
Proof.
  unfold _check_dups. case_bool_decide; [apply raises_only_mret |].
  apply raises_only_raise. by right.
Qed.

Lemma raises_only_append g qargs : raises_only library_error (append g qargs).
Proof.
  unfold append. destruct (broadcast_arguments _ _) as [qargss | e] eqn:E.
  - apply raises_only_for_. intros qs.
    apply raises_only_bind; [apply raises_only__check_dups |].
    intros _. apply raises_only_push.
  - apply raises_only_raise. unfold broadcast_arguments in E.
    repeat case_match; simplify_eq; by right.
Qed.

Ltac raises_only_tac :=
  repeat first
    [ apply raises_only_getitem
    | apply raises_only__check_dups
    | apply raises_only_append
    | apply raises_only_push
    | apply raises_only_mret
    | apply raises_only_for_; intros ?
    | apply raises_only_bind; [| intros ?] ].

Lemma raises_only_negate_loop qr_B qr_SB qr_ancilla :
  raises_only library_error (negate_loop qr_B qr_SB qr_ancilla).
Proof. unfold negate_loop, cx, swap, reset. raises_only_tac. Qed.

Lemma raises_only_adder_loop qr_A qr_B qr_S qr_SB qr_carry qr_ancilla :
  raises_only library_error (adder_loop qr_A qr_B qr_S qr_SB qr_carry qr_ancilla).
Proof.
  unfold adder_loop, reset. apply raises_only_for_. intros i.
  destruct (i =? 0); raises_only_tac.
Qed.

(** ** What the loops have appended, whether they return or raise *)

Lemma yields_eq {A} (m : QC A) v l l' : yields m v l → l = l' → yields m v l'.
Proof. by intros ? <-. Qed.

Lemma yields_mret {A} (a : A) : yields (mret a) a [].
Proof. intros d. by rewrite app_nil_r. Qed.

Lemma yields_push i : yields (push i) () [i].
Proof. by intros d. Qed.

Lemma yields_getitem r i : yields (getitem r i) (r, i) [].
Proof.
  intros d. unfold getitem. case_decide; simpl.
  - by rewrite app_nil_r.
  - exists []. by rewrite app_nil_r.
Qed.

Lemma yields__check_dups qs : yields (_check_dups qs) () [].
Proof.
  intros d. unfold _check_dups. case_bool_decide; simpl.
  - by rewrite app_nil_r.
  - exists []. by rewrite app_nil_r.
Qed.

Lemma yields_bind {A B} (m : QC A) (f : A → QC B) v w l1 l2 :
  yields m v l1 → yields (f v) w l2 → yields (m ≫= f) w (l1 ++ l2).
Proof.
  intros Hm Hf d. unfold mbind, QC_bind. specialize (Hm d).
  destruct (m d) as [[a|e] d1].
  - destruct Hm as [-> ->]. specialize (Hf (d ++ l1)).
    destruct (f v (d ++ l1)) as [[b|e] d2].
    + destruct Hf as [-> ->]. by rewrite app_assoc.
    + destruct Hf as (l' & -> & Hl'). exists (l1 ++ l').
      split; [by rewrite app_assoc | by apply prefix_app].
  - destruct Hm as (l' & -> & Hl'). exists l'. split; [done | by apply prefix_app_r].
Qed.

Lemma yields_for_ {A} (l : list A) (body : A → QC unit) (f : A → list Instruction) :
  (∀ a, yields (body a) () (f a)) → yields (for_ l body) () (concat (f <$> l)).
Proof.
  intros Hb. induction l as [|a l IH]; simpl; [apply yields_mret |].
  eapply yields_bind; [apply Hb | apply IH].
Qed.

Lemma yields_append_FullAdder_reg a b r c s a0 a1 a2 :
  yields
    (append FullAdder [QBit a; QBit b; QReg r; QBit c; QBit s; QBit a0; QBit a1; QBit a2])
    () [Call FullAdder [a; b; (r, 0); c; s; a0; a1; a2]].
Proof.
  intros d. unfold append, broadcast_arguments. simpl.
  destruct (reg_size r) as [|[|n]]; simpl.
  - exists []. rewrite app_nil_r. split; [done | apply prefix_nil].
  - unfold mbind, QC_bind, _check_dups. case_bool_decide; simpl; [done |].
    exists []. rewrite app_nil_r. split; [done | apply prefix_nil].
  - exists []. rewrite app_nil_r. split; [done | apply prefix_nil].
Qed.

Lemma yields_append_FullAdder_qubits a b cin c s a0 a1 a2 :
  yields
    (append FullAdder [QBit a; QBit b; QBit cin; QBit c; QBit s; QBit a0; QBit a1; QBit a2])
    () [Call FullAdder [a; b; cin; c; s; a0; a1; a2]].
Proof.
  intros d. unfold append, broadcast_arguments. simpl.
  unfold mbind, QC_bind, _check_dups. case_bool_decide; simpl; [done |].
  exists []. rewrite app_nil_r. split; [done | apply prefix_nil].
Qed.

(** Follows a sequence of binds, collecting what each step appends. *)
Ltac yields_step :=
  cbv beta;
  lazymatch goal with
  | |- yields (mbind _ _) _ _ => eapply yields_bind
  | |- yields (getitem _ _) _ _ => apply yields_getitem
  | |- yields (_check_dups _) _ _ => apply yields__check_dups
  | |- yields (push _) _ _ => apply yields_push
  | |- yields (mret _) _ _ => apply yields_mret
  | |- yields (append FullAdder [_; _; QReg _; _; _; _; _; _]) _ _ =>
      apply yields_append_FullAdder_reg
  | |- yields (append FullAdder _) _ _ => apply yields_append_FullAdder_qubits
  end.

Ltac yields_tac := eapply yields_eq; [repeat yields_step | reflexivity].

Lemma yields_negate_loop qr_B qr_SB qr_ancilla :
  yields (negate_loop qr_B qr_SB qr_ancilla) ()
         (negate_program qr_B qr_SB qr_ancilla).
Proof.
  unfold negate_loop, negate_program. apply yields_for_. intros i.
  unfold cx, swap, reset. simpl. yields_tac.
Qed.

Lemma yields_adder_loop qr_A qr_B qr_S qr_SB qr_carry qr_ancilla :
  yields (adder_loop qr_A qr_B qr_S qr_SB qr_carry qr_ancilla) ()
         (adder_program qr_A qr_B qr_S qr_SB qr_carry qr_ancilla).
Proof.
  unfold adder_loop, adder_program. apply yields_for_. intros i.
  unfold adder_stage, carry_in, reset. simpl.
  destruct (i =? 0) eqn:Ei; [apply Nat.eqb_eq in Ei as -> |]; yields_tac.
Qed.

(** Whatever [_build] does from an unbuilt circuit, the data it leaves is a
    prefix of the full program: all of it when [_build] returns, none of it
    when the configuration check raises. *)
Lemma _build_yields self r self' :
  _data self = None → _build self = (r, self') →
  ∃ p, self' = set_data (Some p) self
    ∧ p `prefix_of`
        negate_program (registerB self) (registerSB self) (registerAncilla self)
        ++ adder_program (registerA self) (registerB self) (registerS self)
             (registerSB self) (registerC self) (registerAncilla self)
    ∧ (r = Ok () →
       p = negate_program (registerB self) (registerSB self) (registerAncilla self)
           ++ adder_program (registerA self) (registerB self) (registerS self)
                (registerSB self) (registerC self) (registerAncilla self))
    ∧ (_num_qubits self = None →
       r = Raise (AttributeError "The input register has not been set.") ∧ p = []).
Proof.
  intros Hd. unfold _build, _check_configuration. rewrite Hd.
  destruct (_num_qubits self) as [n|].
  - pose proof (yields_bind _ (λ _, adder_loop _ _ _ _ _ _) _ _ _ _
                  (yields_negate_loop (registerB self) (registerSB self)
                     (registerAncilla self))
                  (yields_adder_loop (registerA self) (registerB self)
                     (registerS self) (registerSB self) (registerC self)
                     (registerAncilla self)) []) as Hy.
    match type of Hy with match ?m with _ => _ end =>
      destruct m as [[[]|e] d'] end.
    + destruct Hy as [_ ->]. intros [= <- <-]. eexists. by repeat split.
    + destruct Hy as (l' & -> & Hl'). intros [= <- <-]. eexists. by repeat split.
  - intros [= <- <-]. exists []. repeat split; [apply prefix_nil | done].
Qed.

(** ** [_build] in closed form *)

Section build.
Variable self : NQubitALU.
Hypothesis distinct :
  NoDup [registerA self; registerB self; registerS self; registerSB self;
         registerC self; registerAncilla self].
Hypothesis unbuilt : _data self = None.
Hypothesis has_num_qubits : is_Some (_num_qubits self).

Let widths :=
  widths_ok (registerA self) (registerB self) (registerS self) (registerSB self)
            (registerC self) (registerAncilla self).

Let program :=
  negate_program (registerB self) (registerSB self) (registerAncilla self)
  ++ adder_program (registerA self) (registerB self) (registerS self)
       (registerSB self) (registerC self) (registerAncilla self).

Lemma _build_ok : widths → _build self = (Ok (), set_data (Some program) self).
Proof using distinct unbuilt has_num_qubits.
  intros [Hn Ha]. unfold _build, _check_configuration.
  destruct has_num_qubits as [n ->]. rewrite unbuilt.
  destruct (distinct_pairs _ _ _ _ _ _ distinct)
    as (_ & (_ & ? & _ & ?) & _ & (_ & ?) & _).
  erewrite bind_ok by (by apply negate_loop_ok).
  by rewrite (adder_loop_ok _ _ _ _ _ _ distinct).
Qed.

Lemma _build_raises :
  ¬ widths → ∃ e self', _build self = (Raise e, self') ∧ library_error e.
Proof using distinct unbuilt has_num_qubits.
  intros Hw. unfold _build, _check_configuration.
  destruct has_num_qubits as [n ->]. rewrite unbuilt.
  match goal with |- context [(?m ≫= ?f) []] =>
    assert (always_raises (m ≫= f)) as Hr; [| assert (raises_only library_error (m ≫= f)) as Ho ]
  end.
  - destruct (decide (reg_size (registerB self) = 0
                      ∨ (0 < reg_size (registerSB self)
                         ∧ 0 < reg_size (registerAncilla self)))) as [Hn | Hn].
    + apply always_raises_bind_r; intros _.
      apply adder_loop_raises; unfold widths, widths_ok in Hw; lia.
    + apply always_raises_bind_l, negate_loop_raises; lia.
  - apply raises_only_bind; [apply raises_only_negate_loop |].
    intros _. apply raises_only_adder_loop.
  - destruct (Hr []) as (e & d' & E). rewrite E. eexists _, _. split; [done |].
    by eapply Ho.
Qed.
End build.

(** ** Where a failing [_build] stops *)

Lemma for__raise_at {A} (l1 : list A) (a : A) (l2 : list A) (body : A → QC unit)
    (f : A → list Instruction) (g : list Instruction) d :
  (∀ x d, x ∈ l1 → body x d = (Ok (), d ++ f x)) →
  (∀ d, ∃ e, body a d = (Raise e, d ++ g)) →
  ∃ e, for_ (l1 ++ a :: l2) body d = (Raise e, d ++ concat (f <$> l1) ++ g).
Proof.
  intros Hok Hbad. revert d. induction l1 as [|x l1 IH]; intros d; simpl.
  - destruct (Hbad d) as [e He]. exists e. by erewrite bind_raise.
  - erewrite bind_ok by (apply Hok; left).
    destruct (IH (λ y d' Hy, Hok y d' (proj2 (elem_of_cons _ _ _) (or_intror Hy)))
                 (d ++ f x)) as [e He].
    exists e. by rewrite He, <- !app_assoc.
Qed.

Lemma append_FullAdder_reg_refused a b r c s a0 a1 a2 d :
  reg_size r ≠ 1 →
  append FullAdder [QBit a; QBit b; QReg r; QBit c; QBit s; QBit a0; QBit a1; QBit a2] d
  = (Raise CircuitError, d).
Proof.
  intros Hr. unfold append, broadcast_arguments. simpl.
  by destruct (reg_size r) as [|[|n]].
Qed.

(** Symbolic execution up to the first register index out of range. *)
Ltac qc_stop :=
  repeat (progress (unfold mbind, QC_bind, mret, QC_ret, raise, push, cx, swap, reset;
                    simpl;
                    rewrite ?getitem_ok by lia;
                    rewrite ?getitem_raise by lia;
                    rewrite ?_check_dups_ok by solve_NoDup)).

Lemma negate_loop_stops_at_ancilla qr_B qr_SB qr_ancilla d :
  0 < reg_size qr_B → reg_size qr_ancilla = 0 →
  negate_loop qr_B qr_SB qr_ancilla d = (Raise IndexError, d).
Proof.
  intros HB Hanc. unfold negate_loop.
  assert (seq 0 (reg_size qr_B) = 0 :: seq 1 (reg_size qr_B - 1)) as ->.
  { destruct (reg_size qr_B); [lia |]. simpl. by rewrite Nat.sub_0_r. }
  by qc_stop.
Qed.

Lemma negate_loop_stops_at_SB qr_B qr_SB qr_ancilla d :
  qr_B ≠ qr_ancilla →
  0 < reg_size qr_B → 0 < reg_size qr_ancilla → reg_size qr_SB = 0 →
  negate_loop qr_B qr_SB qr_ancilla d
  = (Raise IndexError, d ++ [Prim (CXGate (qr_B, 0) (qr_ancilla, 0))]).
Proof.
  intros Hne HB Hanc HSB. unfold negate_loop.
  assert (seq 0 (reg_size qr_B) = 0 :: seq 1 (reg_size qr_B - 1)) as ->.
  { destruct (reg_size qr_B); [lia |]. simpl. by rewrite Nat.sub_0_r. }
  by qc_stop.
Qed.

Section stops.
Variables qr_A qr_B qr_S qr_SB qr_carry qr_ancilla : QuantumRegister.
Hypothesis distinct : NoDup [qr_A; qr_B; qr_S; qr_SB; qr_carry; qr_ancilla].

Lemma adder_iteration_ok i d :
  i < reg_size qr_A → i < reg_size qr_B → i < reg_size qr_S →
  i < reg_size qr_carry → reg_size qr_SB = 1 → 3 ≤ reg_size qr_ancilla →
  (if i =? 0 then
     a ← getitem qr_A i; b ← getitem qr_B i;
     c ← getitem qr_carry i; s ← getitem qr_S i;
     a0 ← getitem qr_ancilla 0; a1 ← getitem qr_ancilla 1;
     a2 ← getitem qr_ancilla 2;
     append FullAdder [QBit a; QBit b; QReg qr_SB; QBit c; QBit s;
                       QBit a0; QBit a1; QBit a2] ;;
     a0 ← getitem qr_ancilla 0; reset (replicate 1 a0) ;;
     a1 ← getitem qr_ancilla 1; reset (replicate 1 a1) ;;
     a2 ← getitem qr_ancilla 2; reset (replicate 1 a2)
   else
     a ← getitem qr_A i; b ← getitem qr_B i;
     cin ← getitem qr_carry (i - 1); c ← getitem qr_carry i;
     s ← getitem qr_S i;
     a0 ← getitem qr_ancilla 0; a1 ← getitem qr_ancilla 1;
     a2 ← getitem qr_ancilla 2;
     append FullAdder [QBit a; QBit b; QBit cin; QBit c; QBit s;
                       QBit a0; QBit a1; QBit a2] ;;
     a0 ← getitem qr_ancilla 0; reset (replicate 1 a0) ;;
     a1 ← getitem qr_ancilla 1; reset (replicate 1 a1) ;;
     a2 ← getitem qr_ancilla 2; reset (replicate 1 a2)) d
  = (Ok (), d ++ adder_stage qr_A qr_B qr_S qr_SB qr_carry qr_ancilla i).
Proof using distinct.
  intros ? ? ? ? ? ?.
  destruct (distinct_pairs _ _ _ _ _ _ distinct)
    as ((?&?&?&?&?) & (?&?&?&?) & (?&?&?) & (?&?) & ?).
  unfold adder_stage, carry_in. destruct (i =? 0) eqn:Ei.
  - apply Nat.eqb_eq in Ei as ->. qc_run.
    rewrite append_FullAdder_reg by (done || solve_NoDup).
    qc_run. by rewrite <- !app_assoc.
  - apply Nat.eqb_neq in Ei. qc_run.
    rewrite (append_FullAdder_qubits _ _ (qr_carry, i - 1)) by solve_NoDup.
    qc_run. by rewrite <- !app_assoc.
Qed.

Lemma adder_loop_stops d :
  let k := stages_done qr_A qr_B qr_S qr_SB qr_carry qr_ancilla in
  0 < reg_size qr_A →
  ¬ (reg_size qr_A ≤ reg_size qr_B ∧ reg_size qr_A ≤ reg_size qr_S ∧
     reg_size qr_A ≤ reg_size qr_carry ∧ reg_size qr_SB = 1 ∧
     3 ≤ reg_size qr_ancilla) →
  ∃ e, adder_loop qr_A qr_B qr_S qr_SB qr_carry qr_ancilla d
       = (Raise e, d ++ concat (adder_stage qr_A qr_B qr_S qr_SB qr_carry qr_ancilla
                                  <$> seq 0 k)).
Proof using distinct.
  intros k HA Hw. unfold adder_loop.
  assert (k < reg_size qr_A) as Hk.
  { subst k. unfold stages_done. case_decide; lia. }
  replace (seq 0 (reg_size qr_A))
    with (seq 0 k ++ k :: seq (S k) (reg_size qr_A - S k)); cycle 1.
  { change (k :: seq (S k) (reg_size qr_A - S k))
      with (seq (0 + k) (S (reg_size qr_A - S k))).
    rewrite <- seq_app. f_equal. lia. }
  match goal with |- ∃ e, _ = (_, ?d' ++ ?l) =>
    replace l with (l ++ []) by apply app_nil_r end.
  subst k. unfold stages_done in *. case_decide as Hs.
  - apply for__raise_at.
    + intros i d0 Hi%elem_of_seq. apply adder_iteration_ok; lia.
    + intros d0. rewrite app_nil_r.
      match goal with |- context [?n =? 0] => destruct (n =? 0) eqn:Ek end;
        [apply Nat.eqb_eq in Ek; lia |].
      match type of Ek with (?n =? 0) = false => set (j := n) in * end.
      destruct (decide (reg_size qr_B ≤ j)); [eexists; by qc_stop |].
      destruct (decide (reg_size qr_carry ≤ j)); [eexists; by qc_stop |].
      destruct (decide (reg_size qr_S ≤ j)); [eexists; by qc_stop | lia].
  - apply for__raise_at with (l1 := []).
    + intros ? ? []%elem_of_nil.
    + intros d0. rewrite app_nil_r. simpl.
      destruct (decide (reg_size qr_B = 0)); [eexists; by qc_stop |].
      destruct (decide (reg_size qr_carry = 0)); [eexists; by qc_stop |].
      destruct (decide (reg_size qr_S = 0)); [eexists; by qc_stop |].
      destruct (decide (reg_size qr_ancilla = 0)); [eexists; by qc_stop |].
      destruct (decide (reg_size qr_ancilla = 1)); [eexists; by qc_stop |].
      destruct (decide (reg_size qr_ancilla = 2)); [eexists; by qc_stop |].
      qc_stop. rewrite append_FullAdder_reg_refused by lia. by eexists.
Qed.
End stops.

Lemma _build_stops (self self' : NQubitALU) (e : Exception) :
  NoDup [registerA self; registerB self; registerS self; registerSB self;
         registerC self; registerAncilla self] →
  _data self = None → _num_qubits self ≠ None →
  _build self = (Raise e, self') →
  self' = set_data
            (Some (appended_before_failure (registerA self) (registerB self)
                     (registerS self) (registerSB self) (registerC self)
                     (registerAncilla self))) self.
Proof.
  intros Hnd Hd Hn. unfold _build, _check_configuration. rewrite Hd.
  destruct (_num_qubits self) as [n|]; [| done].
  destruct (distinct_pairs _ _ _ _ _ _ Hnd)
    as (_ & (_ & ? & _ & ?) & _ & (_ & ?) & _).
  unfold appended_before_failure.
  destruct (decide (0 < reg_size (registerB self)
                    ∧ reg_size (registerAncilla self) = 0)) as [[? ?] | Ha].
  { erewrite bind_raise by (by apply negate_loop_stops_at_ancilla).
    by intros [= _ <-]. }
  destruct (decide (0 < reg_size (registerB self)
                    ∧ reg_size (registerSB self) = 0)) as [[? ?] | Hb].
  { erewrite bind_raise by (apply negate_loop_stops_at_SB; [done | lia..]).
    by intros [= _ <-]. }
  erewrite bind_ok by (apply negate_loop_ok; [done.. | lia]).
  destruct (decide (reg_size (registerA self) = 0 ∨
                    (reg_size (registerA self) ≤ reg_size (registerB self)
                     ∧ reg_size (registerA self) ≤ reg_size (registerS self)
                     ∧ reg_size (registerA self) ≤ reg_size (registerC self)
                     ∧ reg_size (registerSB self) = 1
                     ∧ 3 ≤ reg_size (registerAncilla self)))) as [Hw | Hw].
  { by rewrite (adder_loop_ok _ _ _ _ _ _ Hnd) by done. }
  destruct (adder_loop_stops _ _ _ _ _ _ Hnd
              ([] ++ negate_program (registerB self) (registerSB self)
                       (registerAncilla self))) as [e' ->]; [lia | tauto |].
  by intros [= _ <-].
Qed.

Lemma _build_library_error (self self' : NQubitALU) (e : Exception) :
  _num_qubits self ≠ None → _build self = (Raise e, self') → library_error e.
Proof.
  intros Hn. unfold _build, _check_configuration.
  destruct (_num_qubits self) as [n|]; [| done].
  assert (∀ d r d',
            (negate_loop (registerB self) (registerSB self) (registerAncilla self) ≫=
             λ _, adder_loop (registerA self) (registerB self) (registerS self)
                    (registerSB self) (registerC self) (registerAncilla self)) d
            = (r, d') → r = Raise e → library_error e) as Hloops.
  { intros d r d' Hrun ->. revert Hrun.
    apply raises_only_bind;
      [apply raises_only_negate_loop | intros _; apply raises_only_adder_loop]. }
  destruct (_data self) as [d0|]; simpl;
    match goal with |- context [(?m ≫= ?f) ?d] =>
      specialize (Hloops d); destruct ((m ≫= f) d) as [r d'] end;
    intros [= -> _]; by eapply Hloops.
Qed.

(** ** Execution: frame, extensionality, sequencing *)

Section execution.
Context {Q : Type} `{EqDecision Q}.
Implicit Types (o : Op Q) (ops : list (Op Q)) (st : Q → bool).

Lemma apply_op_frame o st q : q ∉ targets o → apply_op o st q = st q.
Proof.
  destruct o; simpl; rewrite ?not_elem_of_cons; intros Hq; destruct_and?;
    rewrite ?fn_lookup_insert_ne by congruence; done.
Qed.

Lemma run_ops_frame ops st q :
  (∀ o, o ∈ ops → q ∉ targets o) → run_ops ops st q = st q.
Proof.
  revert st. induction ops as [|o ops IH]; intros st Hq; [done |].
  simpl. rewrite IH by (intros; apply Hq; by right).
  apply apply_op_frame, Hq. by left.
Qed.

Lemma fn_insert_ext (st1 st2 : Q → bool) t v1 v2 q :
  v1 = v2 → (∀ q, st1 q = st2 q) → <[t := v1]> st1 q = <[t := v2]> st2 q.
Proof.
  intros -> Hst. destruct (decide (t = q)) as [-> |].
  - by rewrite !fn_lookup_insert.
  - by rewrite !fn_lookup_insert_ne.
Qed.

Lemma apply_op_ext o st1 st2 :
  (∀ q, st1 q = st2 q) → ∀ q, apply_op o st1 q = apply_op o st2 q.
Proof.
  intros Hst q. destruct o; simpl;
    repeat (apply fn_insert_ext; [by rewrite ?Hst | intros ?]); done.
Qed.

Lemma run_ops_ext ops st1 st2 :
  (∀ q, st1 q = st2 q) → ∀ q, run_ops ops st1 q = run_ops ops st2 q.
Proof.
  revert st1 st2. induction ops as [|o ops IH]; intros st1 st2 Hst; [done |].
  simpl. apply IH. by apply apply_op_ext.
Qed.

Lemma run_ops_app ops1 ops2 st :
  run_ops (ops1 ++ ops2) st = run_ops ops2 (run_ops ops1 st).
Proof. apply foldl_app. Qed.
End execution.

Lemma decompose_cons i p ops1 ops2 :
  decompose_instruction i = Some ops1 → decompose p = Some ops2 →
  decompose (i :: p) = Some (ops1 ++ ops2).
Proof.
  unfold decompose. intros H1 H2. simpl. rewrite H1. simpl.
  destruct (mapM decompose_instruction p); by simplify_eq/=.
Qed.

Lemma decompose_app p1 p2 ops1 ops2 :
  decompose p1 = Some ops1 → decompose p2 = Some ops2 →
  decompose (p1 ++ p2) = Some (ops1 ++ ops2).
Proof.
  revert ops1. induction p1 as [|i p1 IH]; intros ops1 H1 H2.
  - by injection H1 as <-.
  - unfold decompose in H1. simpl in H1.
    destruct (decompose_instruction i) as [o1|] eqn:Ei; [|done]. simpl in H1.
    destruct (mapM decompose_instruction p1) as [os|] eqn:Ep; [|done].
    simpl in H1. injection H1 as <-. simpl.
    rewrite <- app_assoc. apply decompose_cons; [done |].
    apply IH; [| done]. unfold decompose. by rewrite Ep.
Qed.

Lemma decompose_concat {A} (f : A → list Instruction) (g : A → list (Op Qubit)) l :
  (∀ a, a ∈ l → decompose (f a) = Some (g a)) →
  decompose (concat (f <$> l)) = Some (concat (g <$> l)).
Proof.
  induction l as [|a l IH]; intros H; [done |]. simpl.
  apply decompose_app; [apply H; by left |]. apply IH. intros; apply H; by right.
Qed.

Lemma run_decomposed p ops st :
  decompose p = Some ops → run p st = Some (run_ops ops st).
Proof. unfold run. by intros ->. Qed.

(** ** Binding a gate definition to distinct qubits *)

Lemma local_state_zero qargs i : local_state qargs zero_state i = false.
Proof. unfold local_state. by destruct (qargs !! i). Qed.

Section binding.
Variable qargs : list Qubit.
Hypothesis qargs_NoDup : NoDup qargs.

Lemma local_state_insert st t qt v i :
  qargs !! t = Some qt →
  local_state qargs (<[qt := v]> st) i = <[t := v]> (local_state qargs st) i.
Proof using qargs_NoDup.
  intros Ht. unfold local_state. destruct (decide (t = i)) as [<- | Hne].
  - rewrite Ht. simpl. by rewrite !fn_lookup_insert.
  - rewrite (fn_lookup_insert_ne _ t i) by done.
    destruct (qargs !! i) as [q|] eqn:Ei; [|done]. simpl.
    rewrite fn_lookup_insert_ne; [done |]. intros <-.
    apply Hne. by eapply NoDup_lookup.
Qed.

Lemma local_state_lookup st i q :
  qargs !! i = Some q → local_state qargs st i = st q.
Proof. unfold local_state. by intros ->. Qed.

Lemma apply_op_bind o o' st :
  bind_op qargs o = Some o' →
  ∀ i, local_state qargs (apply_op o' st) i = apply_op o (local_state qargs st) i.
Proof using qargs_NoDup.
  intros Hb i. destruct o; simpl in Hb; simplify_option_eq; simpl;
    repeat match goal with
           | H : qargs !! _ = Some _ |- _ =>
               rewrite <- (local_state_lookup st _ _ H)
           end.
  - by apply local_state_insert.
  - by apply local_state_insert.
  - by apply local_state_insert.
  - rewrite (local_state_insert _ a) by done.
    apply fn_insert_ext; [done |]. intros. by apply local_state_insert.
  - by apply local_state_insert.
Qed.

Lemma targets_bind o o' q :
  bind_op qargs o = Some o' → q ∈ targets o' → q ∈ qargs.
Proof.
  intros Hb. destruct o; simpl in Hb; simplify_option_eq; simpl;
    rewrite ?elem_of_cons, elem_of_nil; intros Hq;
    repeat destruct Hq as [-> | Hq]; try done; by eapply list_elem_of_lookup_2.
Qed.

Lemma run_ops_bind ops ops' st :
  mapM (bind_op qargs) ops = Some ops' →
  (∀ i, local_state qargs (run_ops ops' st) i = run_ops ops (local_state qargs st) i)
  ∧ (∀ q, q ∉ qargs → run_ops ops' st q = st q).
Proof using qargs_NoDup.
  revert ops' st. induction ops as [|o ops IH]; intros ops' st Hm.
  - by injection Hm as <-.
  - simpl in Hm. destruct (bind_op qargs o) as [o'|] eqn:Eo; [|done]. simpl in Hm.
    destruct (mapM (bind_op qargs) ops) as [os|] eqn:Eos; [|done].
    simpl in Hm. injection Hm as <-. simpl.
    destruct (IH os (apply_op o' st) eq_refl) as [IH1 IH2]. split.
    + intros i. rewrite IH1. apply run_ops_ext. by apply apply_op_bind.
    + intros q Hq. rewrite IH2 by done. apply apply_op_frame.
      intros Hin. apply Hq. by eapply targets_bind.
Qed.
End binding.

(** ** The two gates on their own wires *)

Lemma HalfAdder_define_run (st : nat → bool) :
  st 2 = false → st 3 = false →
  run_ops HalfAdder_define st 2 = xorb (st 0) (st 1)
  ∧ run_ops HalfAdder_define st 3 = st 0 && st 1.
Proof.
  intros H2 H3. cbv. rewrite ?H2, ?H3. by destruct (st 0), (st 1).
Qed.

Lemma FullAdder_define_run (st : nat → bool) :
  st 5 = false → st 6 = false → st 7 = false →
  run_ops FullAdder_define st 4 = xorb (st 4) (xorb (xorb (st 0) (st 1)) (st 2))
  ∧ run_ops FullAdder_define st 3 = xorb (st 3) (majority (st 0) (st 1) (st 2))
  ∧ run_ops FullAdder_define st 5 = xorb (st 0) (st 1)
  ∧ run_ops FullAdder_define st 6 = st 0 && st 1
  ∧ run_ops FullAdder_define st 7 = st 2 && xorb (st 0) (st 1).
Proof.
  intros H5 H6 H7. cbv. rewrite ?H5, ?H6, ?H7.
  by destruct (st 0), (st 1), (st 2), (st 3), (st 4).
Qed.

Lemma FullAdder_define_controls (st : nat → bool) i :
  i < 3 → run_ops FullAdder_define st i = st i.
Proof.
  intros Hi. apply run_ops_frame. intros o Ho.
  repeat (apply elem_of_cons in Ho as [-> | Ho];
          [cbn; rewrite ?not_elem_of_cons; repeat split;
           first [apply not_elem_of_nil | lia] |]).
  by apply elem_of_nil in Ho.
Qed.

(** The full adder bound to eight distinct qubits. *)
Lemma FullAdder_bound (a b cin cout sum s1 s2 s3 : Qubit) (st : State) :
  NoDup [a; b; cin; cout; sum; s1; s2; s3] →
  st s1 = false → st s2 = false → st s3 = false →
  ∃ st', run [Call FullAdder [a; b; cin; cout; sum; s1; s2; s3]] st = Some st'
    ∧ st' sum = xorb (st sum) (xorb (xorb (st a) (st b)) (st cin))
    ∧ st' cout = xorb (st cout) (majority (st a) (st b) (st cin))
    ∧ st' s1 = xorb (st a) (st b)
    ∧ st' s2 = st a && st b
    ∧ st' s3 = st cin && xorb (st a) (st b)
    ∧ st' a = st a ∧ st' b = st b ∧ st' cin = st cin
    ∧ ∀ q, q ∉ [a; b; cin; cout; sum; s1; s2; s3] → st' q = st q.
Proof.
  intros Hnd H1 H2 H3.
  set (qargs := [a; b; cin; cout; sum; s1; s2; s3]).
  eexists. split; [by apply run_decomposed |].
  match goal with |- context [run_ops ?l st] => set (ops := l) end.
  destruct (run_ops_bind qargs Hnd FullAdder_define ops st eq_refl) as [Hloc Hframe].
  destruct (FullAdder_define_run (local_state qargs st) H1 H2 H3)
    as (Hsum & Hcout & Hs1 & Hs2 & Hs3).
  rewrite <- !Hloc in Hsum, Hcout, Hs1, Hs2, Hs3.
  repeat split; try done.
  - change (run_ops ops st a) with (local_state qargs (run_ops ops st) 0).
    by rewrite Hloc, FullAdder_define_controls by lia.
  - change (run_ops ops st b) with (local_state qargs (run_ops ops st) 1).
    by rewrite Hloc, FullAdder_define_controls by lia.
  - change (run_ops ops st cin) with (local_state qargs (run_ops ops st) 2).
    by rewrite Hloc, FullAdder_define_controls by lia.
Qed.

(** ** The conditional-negate stage *)

Ltac fn_simpl :=
  repeat first
    [ rewrite fn_lookup_insert
    | rewrite fn_lookup_insert_ne by first [ done | congruence | intros [=]; congruence ] ].

Section negate.
Variables qr_B qr_SB qr_ancilla : QuantumRegister.
Hypothesis B_SB : qr_B ≠ qr_SB.
Hypothesis B_ancilla : qr_B ≠ qr_ancilla.
Hypothesis SB_ancilla : qr_SB ≠ qr_ancilla.

Lemma decompose_negate_program :
  decompose (negate_program qr_B qr_SB qr_ancilla)
  = Some (concat (negate_bit_ops qr_B qr_SB qr_ancilla <$> seq 0 (reg_size qr_B))).
Proof. unfold negate_program. by apply decompose_concat. Qed.

Lemma negate_bit_run (st : State) i :
  st (qr_ancilla, 0) = false →
  let st' := run_ops (negate_bit_ops qr_B qr_SB qr_ancilla i) st in
  st' (qr_B, i) = xorb (st (qr_B, i)) (st (qr_SB, 0))
  ∧ st' (qr_ancilla, 0) = false
  ∧ ∀ q, q ≠ (qr_B, i) → q ≠ (qr_ancilla, 0) → st' q = st q.
Proof using B_SB B_ancilla SB_ancilla.
  intros Hanc. cbn. repeat split.
  - fn_simpl. rewrite Hanc. by destruct (st (qr_B, i)), (st (qr_SB, 0)).
  - by fn_simpl.
  - intros q ? ?. by fn_simpl.
Qed.

Lemma negate_bits_run (l : list nat) (st : State) :
  NoDup l → st (qr_ancilla, 0) = false →
  let st' := run_ops (concat (negate_bit_ops qr_B qr_SB qr_ancilla <$> l)) st in
  st' (qr_ancilla, 0) = false
  ∧ (∀ i, i ∈ l → st' (qr_B, i) = xorb (st (qr_B, i)) (st (qr_SB, 0)))
  ∧ ∀ q, q ≠ (qr_ancilla, 0) → (∀ i, i ∈ l → q ≠ (qr_B, i)) → st' q = st q.
Proof using B_SB B_ancilla SB_ancilla.
  revert st. induction l as [|i l IH]; intros st Hnd Hanc.
  { repeat split; try done. intros i Hi. by apply elem_of_nil in Hi. }
  apply NoDup_cons in Hnd as [Hi Hnd]. cbv zeta.
  rewrite fmap_cons. cbn [concat]. rewrite run_ops_app.
  destruct (negate_bit_run st i Hanc) as (Hb1 & Ha1 & Hf1).
  destruct (IH _ Hnd Ha1) as (Ha & Hb & Hf). repeat split.
  - done.
  - intros j [-> | Hj]%elem_of_cons.
    + rewrite Hf; [done | congruence |]. intros k Hk [=]. congruence.
    + rewrite Hb by done. rewrite !Hf1; congruence.
  - intros q Hq Hl. rewrite Hf, Hf1; [done | | done | done |].
    + apply Hl. by left.
    + intros k Hk. apply Hl. by right.
Qed.

(** What the stage computes, from any circuit data it is appended to. *)
Lemma negate_stage_spec (st : State) :
  0 < reg_size qr_SB → 0 < reg_size qr_ancilla →
  st (qr_ancilla, 0) = false →
  ∃ st', run (negate_program qr_B qr_SB qr_ancilla) st = Some st'
    ∧ (∀ i, i < reg_size qr_B → st' (qr_B, i) = xorb (st (qr_B, i)) (st (qr_SB, 0)))
    ∧ st' (qr_SB, 0) = st (qr_SB, 0)
    ∧ st' (qr_ancilla, 0) = false
    ∧ ∀ q, q.1 ≠ qr_B → q ≠ (qr_ancilla, 0) → st' q = st q.
Proof using B_SB B_ancilla SB_ancilla.
  intros HSB Hanc Hst. eexists. split.
  { apply run_decomposed, decompose_negate_program. }
  destruct (negate_bits_run (seq 0 (reg_size qr_B)) st (NoDup_seq _ _) Hst)
    as (Ha & Hb & Hf).
  repeat split.
  - intros i Hi. apply Hb, elem_of_seq. lia.
  - apply Hf; [congruence |]. intros i _ [=]. congruence.
  - done.
  - intros [r k] Hr Hq. apply Hf; [done |]. intros i _ [=]. by apply Hr.
Qed.
End negate.

(** * The claims *)

(** ** Gates *)

(** C5.  The half adder appended on four distinct qubits (a, b, sum, carry)
    is accepted and stands for exactly the three operations
    [cx a sum], [cx b sum], [ccx a b carry]; when the sum and carry wires are
    0 on entry it leaves sum = a XOR b and carry = a AND b, and no wire other
    than sum and carry changes. *)
Theorem HalfAdder_correct (a b sum carry : Qubit) (st : State) :
  NoDup [a; b; sum; carry] → st sum = false → st carry = false →
  append HalfAdder [QBit a; QBit b; QBit sum; QBit carry] []
    = (Ok (), [Call HalfAdder [a; b; sum; carry]])
  ∧ decompose [Call HalfAdder [a; b; sum; carry]]
    = Some [CXGate a sum; CXGate b sum; CCXGate a b carry]
  ∧ ∃ st', run [Call HalfAdder [a; b; sum; carry]] st = Some st'
      ∧ st' sum = xorb (st a) (st b)
      ∧ st' carry = st a && st b
      ∧ ∀ q, q ≠ sum → q ≠ carry → st' q = st q.
Proof.
  intros Hnd Hsum Hcarry. split; [| split; [done |]].
  { unfold append, broadcast_arguments. simpl.
    unfold mbind, QC_bind. by rewrite _check_dups_ok. }
  set (qargs := [a; b; sum; carry]).
  eexists. split; [by apply run_decomposed |].
  match goal with |- context [run_ops ?l st] => set (ops := l) end.
  destruct (run_ops_bind qargs Hnd HalfAdder_define ops st eq_refl) as [Hloc _].
  destruct (HalfAdder_define_run (local_state qargs st) Hsum Hcarry) as [H2 H3].
  rewrite <- !Hloc in H2, H3. repeat split; [done | done |].
  intros q ? ?. apply run_ops_frame. intros o Ho.
  repeat (apply elem_of_cons in Ho as [-> | Ho];
          [cbn; rewrite ?not_elem_of_cons; repeat split;
           first [apply not_elem_of_nil | done] |]).
  by apply elem_of_nil in Ho.
Qed.

Lemma HalfAdder_correct_witness :
  let q := define_register HalfAdder in
  let st : State := <[(q, 0) := true]> (<[(q, 1) := true]> (λ _, false)) in
  append HalfAdder [QBit (q, 0); QBit (q, 1); QBit (q, 2); QBit (q, 3)] []
    = (Ok (), [Call HalfAdder [(q, 0); (q, 1); (q, 2); (q, 3)]])
  ∧ decompose [Call HalfAdder [(q, 0); (q, 1); (q, 2); (q, 3)]]
    = Some [CXGate (q, 0) (q, 2); CXGate (q, 1) (q, 2); CCXGate (q, 0) (q, 1) (q, 3)]
  ∧ ∃ st', run [Call HalfAdder [(q, 0); (q, 1); (q, 2); (q, 3)]] st = Some st'
      ∧ st' (q, 2) = xorb (st (q, 0)) (st (q, 1))
      ∧ st' (q, 3) = st (q, 0) && st (q, 1)
      ∧ ∀ q', q' ≠ (q, 2) → q' ≠ (q, 3) → st' q' = st q'.
Proof.
  intros q st.
  apply (HalfAdder_correct (q, 0) (q, 1) (q, 2) (q, 3) st);
    [solve_NoDup | reflexivity | reflexivity].
Defined.

(** C1, as stated, fails: with the three scratch wires at 0 but the sum wire
    at 1 on entry (a = b = cin = 0), the sum wire ends at 1, which is not
    a XOR b XOR cin. *)
Lemma FullAdder_sum_wire_not_zero_counterexample :
  ¬ (∀ (a b cin cout sum s1 s2 s3 : Qubit) (st st' : State),
       NoDup [a; b; cin; cout; sum; s1; s2; s3] →
       st s1 = false → st s2 = false → st s3 = false →
       run [Call FullAdder [a; b; cin; cout; sum; s1; s2; s3]] st = Some st' →
       st' sum = xorb (xorb (st a) (st b)) (st cin)
       ∧ st' cout = majority (st a) (st b) (st cin)).
Proof.
  intros H. set (q := define_register FullAdder).
  set (st := <[(q, 4) := true]> (λ _, false) : State).
  edestruct (H (q, 0) (q, 1) (q, 2) (q, 3) (q, 4) (q, 5) (q, 6) (q, 7) st)
    as [Hsum _]; [solve_NoDup | reflexivity.. |].
  vm_compute in Hsum. discriminate.
Qed.

(** C1, amended.  The full adder appended on eight distinct qubits is
    accepted, and when its three scratch wires and its sum and cout wires are
    0 on entry, executing it yields sum = a XOR b XOR cin and
    cout = majority(a, b, cin). *)
Theorem FullAdder_correct (a b cin cout sum s1 s2 s3 : Qubit) (st : State) :
  NoDup [a; b; cin; cout; sum; s1; s2; s3] →
  st s1 = false → st s2 = false → st s3 = false →
  st sum = false → st cout = false →
  ∃ p st',
    append FullAdder [QBit a; QBit b; QBit cin; QBit cout; QBit sum;
                      QBit s1; QBit s2; QBit s3] [] = (Ok (), p)
    ∧ run p st = Some st'
    ∧ st' sum = xorb (xorb (st a) (st b)) (st cin)
    ∧ st' cout = majority (st a) (st b) (st cin).
Proof.
  intros Hnd H1 H2 H3 Hsum Hcout.
  destruct (FullAdder_bound a b cin cout sum s1 s2 s3 st Hnd H1 H2 H3)
    as (st' & Hrun & Hs & Hc & _).
  eexists _, st'. split; [by apply append_FullAdder_qubits |]. split; [done |].
  by rewrite Hs, Hc, Hsum, Hcout.
Qed.

Lemma FullAdder_correct_witness :
  let q := define_register FullAdder in
  let st : State := <[(q, 0) := true]> (<[(q, 2) := true]> (λ _, false)) in
  ∃ p st',
    append FullAdder [QBit (q, 0); QBit (q, 1); QBit (q, 2); QBit (q, 3);
                      QBit (q, 4); QBit (q, 5); QBit (q, 6); QBit (q, 7)] []
      = (Ok (), p)
    ∧ run p st = Some st'
    ∧ st' (q, 4) = xorb (xorb (st (q, 0)) (st (q, 1))) (st (q, 2))
    ∧ st' (q, 3) = majority (st (q, 0)) (st (q, 1)) (st (q, 2)).
Proof.
  intros q st.
  apply (FullAdder_correct (q, 0) (q, 1) (q, 2) (q, 3) (q, 4) (q, 5) (q, 6) (q, 7) st);
    [solve_NoDup | reflexivity..].
Defined.

(** C10.  The full adder's definition holds no reset, and bound to eight
    distinct qubits with the three scratch wires 0 on entry it leaves
    scratch1 = a XOR b, scratch2 = a AND b and scratch3 = cin AND (a XOR b). *)
Theorem FullAdder_scratch (a b cin cout sum s1 s2 s3 : Qubit) (st : State) :
  NoDup [a; b; cin; cout; sum; s1; s2; s3] →
  st s1 = false → st s2 = false → st s3 = false →
  (∀ i, Reset i ∉ FullAdder_define)
  ∧ ∃ ops st',
      decompose [Call FullAdder [a; b; cin; cout; sum; s1; s2; s3]] = Some ops
      ∧ (∀ q, Reset q ∉ ops)
      ∧ run [Call FullAdder [a; b; cin; cout; sum; s1; s2; s3]] st = Some st'
      ∧ st' s1 = xorb (st a) (st b)
      ∧ st' s2 = st a && st b
      ∧ st' s3 = st cin && xorb (st a) (st b).
Proof.
  intros Hnd H1 H2 H3. split.
  { intros i Hi. unfold FullAdder_define in Hi.
    repeat (apply elem_of_cons in Hi as [? | Hi]; [done |]).
    by apply elem_of_nil in Hi. }
  destruct (FullAdder_bound a b cin cout sum s1 s2 s3 st Hnd H1 H2 H3)
    as (st' & Hrun & _ & _ & Hs1 & Hs2 & Hs3 & _).
  eexists _, st'. split; [reflexivity |]. split; [| done].
  intros q Hq. simpl in Hq.
  repeat (apply elem_of_cons in Hq as [? | Hq]; [done |]).
  by apply elem_of_nil in Hq.
Qed.

Lemma FullAdder_scratch_witness :
  let q := define_register FullAdder in
  let st : State := <[(q, 1) := true]> (<[(q, 2) := true]> (λ _, false)) in
  (∀ i, Reset i ∉ FullAdder_define)
  ∧ ∃ ops st',
      decompose [Call FullAdder [(q, 0); (q, 1); (q, 2); (q, 3);
                                 (q, 4); (q, 5); (q, 6); (q, 7)]] = Some ops
      ∧ (∀ q', Reset q' ∉ ops)
      ∧ run [Call FullAdder [(q, 0); (q, 1); (q, 2); (q, 3);
                             (q, 4); (q, 5); (q, 6); (q, 7)]] st = Some st'
      ∧ st' (q, 5) = xorb (st (q, 0)) (st (q, 1))
      ∧ st' (q, 6) = st (q, 0) && st (q, 1)
      ∧ st' (q, 7) = st (q, 2) && xorb (st (q, 0)) (st (q, 1)).
Proof.
  intros q st.
  apply (FullAdder_scratch (q, 0) (q, 1) (q, 2) (q, 3) (q, 4) (q, 5) (q, 6) (q, 7) st);
    [solve_NoDup | reflexivity..].
Defined.

(** C7.  Appending the half adder on a number of arguments other than 4, or
    the full adder on a number other than 8, raises (qiskit's [CircuitError],
    the file's only configuration error for gates) and appends nothing. *)
Theorem append_wrong_arity (g : Gate) (qargs : list QArg) (d : list Instruction) :
  length qargs ≠ match g with HalfAdder => 4 | FullAdder => 8 end →
  append g qargs d = (Raise CircuitError, d).
Proof.
  intros Hlen. unfold append, broadcast_arguments. rewrite length_fmap.
  destruct (length qargs =? num_qubits g) eqn:E; [| done].
  apply Nat.eqb_eq in E. by destruct g.
Qed.

Lemma append_wrong_arity_witness :
  let q := define_register HalfAdder in
  append HalfAdder [QBit (q, 0); QBit (q, 1); QBit (q, 2)] [] = (Raise CircuitError, []).
Proof.
  intros q. apply (append_wrong_arity HalfAdder); simpl; lia.
Defined.

(** ** The conditional-negate stage *)

Lemma run_app p1 p2 (st st1 st2 : State) :
  run p1 st = Some st1 → run p2 st1 = Some st2 → run (p1 ++ p2) st = Some st2.
Proof.
  unfold run. destruct (decompose p1) as [ops1|] eqn:E1; [|done].
  destruct (decompose p2) as [ops2|] eqn:E2; [|done]. simpl.
  intros [= <-] [= <-]. rewrite (decompose_app _ _ _ _ E1 E2). simpl.
  by rewrite run_ops_app.
Qed.

(** C4.  For distinct registers B, SB and ancilla (SB and the ancilla register
    not empty), the first loop of [_build] runs to completion, and executing
    what it appended from a state whose first ancilla is 0 leaves
    B[i] XOR SB in every B[i], SB unchanged and the first ancilla at 0. *)
Theorem negate_stage_correct (qr_B qr_SB qr_ancilla : QuantumRegister) (st : State) :
  qr_B ≠ qr_SB → qr_B ≠ qr_ancilla → qr_SB ≠ qr_ancilla →
  0 < reg_size qr_SB → 0 < reg_size qr_ancilla →
  st (qr_ancilla, 0) = false →
  ∃ p st',
    negate_loop qr_B qr_SB qr_ancilla [] = (Ok (), p)
    ∧ run p st = Some st'
    ∧ (∀ i, i < reg_size qr_B → st' (qr_B, i) = xorb (st (qr_B, i)) (st (qr_SB, 0)))
    ∧ st' (qr_SB, 0) = st (qr_SB, 0)
    ∧ st' (qr_ancilla, 0) = false.
Proof.
  intros H1 H2 H3 HSB Hanc Hst.
  destruct (negate_stage_spec qr_B qr_SB qr_ancilla H1 H2 H3 st HSB Hanc Hst)
    as (st' & Hrun & HB & HS & HA & _).
  eexists _, st'. split; [apply negate_loop_ok; auto |]. done.
Qed.

Lemma negate_stage_correct_witness :
  let st : State := <[(main_registerB, 0) := true]>
                      (<[(main_registerSB, 0) := true]> zero_state) in
  ∃ p st',
    negate_loop main_registerB main_registerSB main_registerAnc [] = (Ok (), p)
    ∧ run p st = Some st'
    ∧ (∀ i, i < reg_size main_registerB →
         st' (main_registerB, i)
         = xorb (st (main_registerB, i)) (st (main_registerSB, 0)))
    ∧ st' (main_registerSB, 0) = st (main_registerSB, 0)
    ∧ st' (main_registerAnc, 0) = false.
Proof.
  intros st.
  apply (negate_stage_correct main_registerB main_registerSB main_registerAnc st);
    [discriminate | discriminate | discriminate | simpl; lia | simpl; lia | reflexivity].
Defined.

(** C6, as stated, fails: when the scratch wire is 1 on entry (B = 000,
    SB = 0), the first run swaps the dirty scratch value into B[0], and after
    the second run B[0] is 1, not 0. *)
Lemma negate_twice_dirty_scratch_counterexample :
  let st : State := <[(main_registerAnc, 0) := true]> zero_state in
  ∃ p st2,
    negate_loop main_registerB main_registerSB main_registerAnc [] = (Ok (), p)
    ∧ run (p ++ p) st = Some st2
    ∧ read st main_registerB = [false; false; false]
    ∧ read st2 main_registerB = [true; false; false].
Proof.
  intros st. eexists _, _. split; [reflexivity |]. split; [reflexivity |].
  split; reflexivity.
Qed.

(** C6, amended.  For distinct registers B, SB and ancilla (SB and the ancilla
    register not empty) and the first ancilla 0 on entry, running the stage
    twice in succession restores every bit of B, and the first ancilla is 0
    after the first run and after the second. *)
Theorem negate_stage_twice (qr_B qr_SB qr_ancilla : QuantumRegister) (st : State) :
  qr_B ≠ qr_SB → qr_B ≠ qr_ancilla → qr_SB ≠ qr_ancilla →
  0 < reg_size qr_SB → 0 < reg_size qr_ancilla →
  st (qr_ancilla, 0) = false →
  ∃ p st1 st2,
    negate_loop qr_B qr_SB qr_ancilla [] = (Ok (), p)
    ∧ (negate_loop qr_B qr_SB qr_ancilla ;; negate_loop qr_B qr_SB qr_ancilla) []
      = (Ok (), p ++ p)
    ∧ run p st = Some st1
    ∧ run p st1 = Some st2
    ∧ run (p ++ p) st = Some st2
    ∧ (∀ i, i < reg_size qr_B → st2 (qr_B, i) = st (qr_B, i))
    ∧ st2 (qr_SB, 0) = st (qr_SB, 0)
    ∧ st1 (qr_ancilla, 0) = false
    ∧ st2 (qr_ancilla, 0) = false.
Proof.
  intros H1 H2 H3 HSB Hanc Hst.
  destruct (negate_stage_spec qr_B qr_SB qr_ancilla H1 H2 H3 st HSB Hanc Hst)
    as (st1 & Hrun1 & HB1 & HS1 & HA1 & _).
  destruct (negate_stage_spec qr_B qr_SB qr_ancilla H1 H2 H3 st1 HSB Hanc HA1)
    as (st2 & Hrun2 & HB2 & HS2 & HA2 & _).
  eexists _, st1, st2. split; [apply negate_loop_ok; auto |]. split.
  { erewrite bind_ok by (apply negate_loop_ok; auto).
    rewrite negate_loop_ok by auto. done. }
  repeat split; try done.
  - by eapply run_app.
  - intros i Hi. rewrite HB2, HB1, HS1 by done.
    by destruct (st (qr_B, i)), (st (qr_SB, 0)).
  - congruence.
Qed.

Lemma negate_stage_twice_witness :
  let st : State := <[(main_registerB, 0) := true]>
                      (<[(main_registerSB, 0) := true]> zero_state) in
  ∃ p st1 st2,
    negate_loop main_registerB main_registerSB main_registerAnc [] = (Ok (), p)
    ∧ (negate_loop main_registerB main_registerSB main_registerAnc ;;
     negate_loop main_registerB main_registerSB main_registerAnc) []
      = (Ok (), p ++ p)
    ∧ run p st = Some st1
    ∧ run p st1 = Some st2
    ∧ run (p ++ p) st = Some st2
    ∧ (∀ i, i < reg_size main_registerB → st2 (main_registerB, i) = st (main_registerB, i))
    ∧ st2 (main_registerSB, 0) = st (main_registerSB, 0)
    ∧ st1 (main_registerAnc, 0) = false
    ∧ st2 (main_registerAnc, 0) = false.
Proof.
  intros st.
  apply (negate_stage_twice main_registerB main_registerSB main_registerAnc st);
    [discriminate | discriminate | discriminate | simpl; lia | simpl; lia | reflexivity].
Defined.

(** ** The built ALU *)

Lemma decompose_adder_program qr_A qr_B qr_S qr_SB qr_carry qr_ancilla :
  decompose (adder_program qr_A qr_B qr_S qr_SB qr_carry qr_ancilla)
  = Some (concat (adder_stage_ops qr_A qr_B qr_S qr_SB qr_carry qr_ancilla
                    <$> seq 0 (reg_size qr_A))).
Proof. unfold adder_program. by apply decompose_concat. Qed.

Lemma elem_of_concat_fmap {A B} (f : A → list B) (l : list A) (b : B) :
  b ∈ concat (f <$> l) → ∃ a, a ∈ l ∧ b ∈ f a.
Proof.
  induction l as [|a l IH]; simpl; [by intros ?%elem_of_nil |].
  intros [H | H]%elem_of_app.
  - exists a. split; [by left | done].
  - destruct (IH H) as (a' & ? & ?). exists a'. split; [by right | done].
Qed.

(** C9.  For six registers of distinct names (qiskit refuses a circuit with two
    registers of one name), the program of a successfully built ALU
    never writes a qubit of register A or of SB: no operation of the flattened
    program has such a qubit as inversion target, swap operand or reset
    target, and executing the program from any basis state leaves them all
    unchanged. *)
Theorem ALU_controls_unchanged
    (rA rB rS rSB rC rAnc : QuantumRegister) (self' : NQubitALU) :
  NoDup (reg_name <$> [rA; rB; rS; rSB; rC; rAnc]) →
  _build (__init__ rA rB rS rSB rC rAnc) = (Ok (), self') →
  ∃ p ops,
    _data self' = Some p
    ∧ decompose p = Some ops
    ∧ (∀ o q, o ∈ ops → q ∈ targets o → q.1 ≠ rA ∧ q.1 ≠ rSB)
    ∧ ∀ st : State, ∃ st',
        run p st = Some st' ∧ ∀ q, q.1 = rA ∨ q.1 = rSB → st' q = st q.
Proof.
  intros Hnd%NoDup_fmap_1 Hb.
  destruct (decide (widths_ok rA rB rS rSB rC rAnc)) as [Hw | Hw]; cycle 1.
  { destruct (_build_raises (__init__ rA rB rS rSB rC rAnc) Hnd eq_refl
                (mk_is_Some _ _ eq_refl) Hw) as (e & s & E & _).
    congruence. }
  rewrite (_build_ok (__init__ rA rB rS rSB rC rAnc) Hnd eq_refl
             (mk_is_Some _ _ eq_refl) Hw) in Hb.
  injection Hb as <-. simpl.
  destruct (distinct_pairs _ _ _ _ _ _ Hnd)
    as ((?&?&?&?&?) & (?&?&?&?) & (?&?&?) & (?&?) & ?).
  pose proof (decompose_app _ _ _ _
                (decompose_negate_program rB rSB rAnc)
                (decompose_adder_program rA rB rS rSB rC rAnc)) as Hd.
  assert (∀ o q,
    o ∈ concat (negate_bit_ops rB rSB rAnc <$> seq 0 (reg_size rB))
        ++ concat (adder_stage_ops rA rB rS rSB rC rAnc <$> seq 0 (reg_size rA)) →
    q ∈ targets o → q.1 ≠ rA ∧ q.1 ≠ rSB) as Htargets.
  { intros o q [Ho | Ho]%elem_of_app Hq;
      apply elem_of_concat_fmap in Ho as (i & _ & Ho);
      unfold negate_bit_ops, adder_stage_ops in Ho;
      repeat (apply elem_of_cons in Ho as [-> | Ho];
              [simpl in Hq;
               repeat (apply elem_of_cons in Hq as [-> | Hq]; [simpl; split; congruence |]);
               by apply elem_of_nil in Hq |]);
      by apply elem_of_nil in Ho. }
  eexists _, _. split; [done |]. split; [exact Hd |]. split; [exact Htargets |].
  intros st. eexists. split; [by apply run_decomposed |].
  intros q Hq. apply run_ops_frame. intros o Ho Hin.
  destruct (Htargets o q Ho Hin). tauto.
Qed.

Lemma ALU_controls_unchanged_witness :
  ∃ self',
    _build (__init__ main_registerA main_registerB main_registerS
                     main_registerSB main_registerC main_registerAnc)
      = (Ok (), self')
    ∧ ∃ p ops,
        _data self' = Some p
        ∧ decompose p = Some ops
        ∧ (∀ o q, o ∈ ops → q ∈ targets o →
             q.1 ≠ main_registerA ∧ q.1 ≠ main_registerSB)
        ∧ ∀ st : State, ∃ st',
            run p st = Some st'
            ∧ ∀ q, q.1 = main_registerA ∨ q.1 = main_registerSB → st' q = st q.
Proof.
  eexists. split; [reflexivity |].
  apply (ALU_controls_unchanged main_registerA main_registerB main_registerS
           main_registerSB main_registerC main_registerAnc);
    [solve_NoDup | reflexivity].
Defined.

(** ** Construction and its failures *)

(** C2, as stated, fails: with A and S of width 1, B of width 2, C of width 3
    and an ancilla register of width 4, the configuration check passes and
    [_build] runs to completion, appending the whole program. *)
Lemma inconsistent_widths_accepted_counterexample :
  let self := __init__ wide_registerA wide_registerB wide_registerS
                       wide_registerSB wide_registerC wide_registerAnc in
  reg_size wide_registerAnc ≠ 3
  ∧ reg_size wide_registerA ≠ reg_size wide_registerB
  ∧ _check_configuration true self = Ok true
  ∧ ∃ self' p, _build self = (Ok (), self') ∧ _data self' = Some p ∧ length p = 12.
Proof.
  intros self. repeat split; [discriminate | discriminate |].
  eexists _, _. split; [reflexivity |]. split; reflexivity.
Qed.

(** C2, amended.  Construction compares no widths.  After [__init__] the
    configuration check always passes, and for six registers of distinct
    names [_build] runs to completion exactly when every index it uses is in range and SB has
    one qubit: B is empty or SB and the ancilla register are not, and A is
    empty or B, S and C are at least as wide as A, SB has width 1 and the
    ancilla register width at least 3.  Otherwise [_build] raises, from inside
    the library ([IndexError] or [CircuitError]), and only once it runs. *)
Theorem build_succeeds_iff_widths_ok (rA rB rS rSB rC rAnc : QuantumRegister) :
  NoDup (reg_name <$> [rA; rB; rS; rSB; rC; rAnc]) →
  let self := __init__ rA rB rS rSB rC rAnc in
  _check_configuration true self = Ok true
  ∧ ((∃ self', _build self = (Ok (), self')) ↔ widths_ok rA rB rS rSB rC rAnc)
  ∧ (¬ widths_ok rA rB rS rSB rC rAnc →
     ∃ e self', _build self = (Raise e, self') ∧ library_error e).
Proof.
  intros Hnd%NoDup_fmap_1 self. split; [done |].
  pose proof (_build_ok self Hnd eq_refl (mk_is_Some _ _ eq_refl)) as Hok.
  pose proof (_build_raises self Hnd eq_refl (mk_is_Some _ _ eq_refl)) as Hraise.
  split; [split |].
  - intros [self' Hb].
    destruct (decide (widths_ok rA rB rS rSB rC rAnc)) as [Hw | Hw]; [done |].
    destruct (Hraise Hw) as (e & s & E & _). congruence.
  - intros Hw. eexists. by apply Hok.
  - exact Hraise.
Qed.

Lemma build_succeeds_iff_widths_ok_witness :
  let self := __init__ main_registerA main_registerB main_registerS
                main_registerSB main_registerC main_registerAnc in
  _check_configuration true self = Ok true
  ∧ ((∃ self', _build self = (Ok (), self'))
     ↔ widths_ok main_registerA main_registerB main_registerS
         main_registerSB main_registerC main_registerAnc)
  ∧ (¬ widths_ok main_registerA main_registerB main_registerS
         main_registerSB main_registerC main_registerAnc →
     ∃ e self', _build self = (Raise e, self') ∧ library_error e).
Proof.
  apply (build_succeeds_iff_widths_ok main_registerA main_registerB main_registerS
           main_registerSB main_registerC main_registerAnc).
  solve_NoDup.
Defined.

(** C8, as stated, fails: with A of width 2 and B of width 1, [_build] raises
    at the second adder stage, and the circuit still holds the eight
    instructions appended before: the whole first loop and the first adder
    stage. *)
Lemma partial_program_counterexample :
  ∃ self',
    _build (__init__ short_registerA short_registerB main_registerS
                     main_registerSB main_registerC main_registerAnc)
      = (Raise IndexError, self')
    ∧ _data self'
      = Some (negate_program short_registerB main_registerSB main_registerAnc
              ++ adder_stage short_registerA short_registerB main_registerS
                   main_registerSB main_registerC main_registerAnc 0)
    ∧ length (default [] (_data self')) = 8.
Proof. eexists. split; [reflexivity |]. split; reflexivity. Qed.

(** C8, amended.  When [_build] fails on a circuit not yet built there is no
    rollback: the circuit keeps exactly what was appended before the failing
    statement, a prefix of the full program.  That is nothing when the
    failure is the configuration check (the number of qubits is unset,
    [AttributeError]).  Otherwise the exception is one of qiskit's, and for
    six distinct registers the data is: nothing when B has a qubit and the
    ancilla register has none; the first [cx] alone when B has a qubit and SB
    has none; and in every other case the whole first loop followed by the
    iterations of the second loop that ran before the raising one. *)
Theorem build_failure_keeps_prefix (self self' : NQubitALU) (e : Exception) :
  _data self = None → _build self = (Raise e, self') →
  ∃ p, self' = set_data (Some p) self
    ∧ p `prefix_of`
        negate_program (registerB self) (registerSB self) (registerAncilla self)
        ++ adder_program (registerA self) (registerB self) (registerS self)
             (registerSB self) (registerC self) (registerAncilla self)
    ∧ (_num_qubits self = None →
       e = AttributeError "The input register has not been set." ∧ p = [])
    ∧ (_num_qubits self ≠ None →
       library_error e
       ∧ (NoDup [registerA self; registerB self; registerS self; registerSB self;
                 registerC self; registerAncilla self] →
          p = appended_before_failure (registerA self) (registerB self)
                (registerS self) (registerSB self) (registerC self)
                (registerAncilla self))).
Proof.
  intros Hd Hb. destruct (_build_yields self _ _ Hd Hb) as (p & Hp & Hpre & _ & Hn).
  exists p. split; [done |]. split; [done |]. split.
  - intros Hnone. destruct (Hn Hnone) as [[= ->] ->]. done.
  - intros Hsome. split; [by eapply _build_library_error |].
    intros Hnd. pose proof (_build_stops self self' e Hnd Hd Hsome Hb) as Hstop.
    rewrite Hp in Hstop. by injection Hstop.
Qed.

Lemma build_failure_keeps_prefix_witness :
  let rS := {| reg_size := 2; reg_name := "q2" |} in
  let self := __init__ main_registerA main_registerB rS main_registerSB
                       main_registerC main_registerAnc in
  ∃ p, (_build self).2 = set_data (Some p) self
    ∧ p `prefix_of`
        negate_program (registerB self) (registerSB self) (registerAncilla self)
        ++ adder_program (registerA self) (registerB self) (registerS self)
             (registerSB self) (registerC self) (registerAncilla self)
    ∧ (_num_qubits self = None →
       IndexError = AttributeError "The input register has not been set." ∧ p = [])
    ∧ (_num_qubits self ≠ None →
       library_error IndexError
       ∧ (NoDup [registerA self; registerB self; registerS self; registerSB self;
                 registerC self; registerAncilla self] →
          p = appended_before_failure (registerA self) (registerB self)
                (registerS self) (registerSB self) (registerC self)
                (registerAncilla self))).
Proof.
  intros rS self.
  apply (build_failure_keeps_prefix self (_build self).2 IndexError);
    [reflexivity | vm_compute; reflexivity].
Defined.

(** ** The worked example of [__main__] *)

(** C3, as stated, fails for SB = 1: the sum register ends at 000 and the
    final carry at 1, not at 111 and 0. *)
Lemma main_negate_counterexample :
  ∃ p st',
    main_circuit true main_registerA main_registerB main_registerS
                 main_registerSB main_registerC main_registerAnc = Ok p
    ∧ run p zero_state = Some st'
    ∧ ¬ (read st' main_registerS = [true; true; true]
         ∧ st' (main_registerC, 2) = false).
Proof.
  eexists _, _. split; [reflexivity |]. split; [reflexivity |].
  intros [H _]. vm_compute in H. discriminate.
Qed.

(** The worked example on any six registers of distinct names and of the
    widths of [__main__]: the final state, read through the slots. *)
Section worked_example.
Variables nA nB nS nSB nC nAnc : string.
Hypothesis names : NoDup [nA; nB; nS; nSB; nC; nAnc].

Let rA := {| reg_size := 3; reg_name := nA |}.
Let rB := {| reg_size := 3; reg_name := nB |}.
Let rS := {| reg_size := 3; reg_name := nS |}.
Let rSB := {| reg_size := 1; reg_name := nSB |}.
Let rC := {| reg_size := 3; reg_name := nC |}.
Let rAnc := {| reg_size := 3; reg_name := nAnc |}.

Lemma main_flat_regs_NoDup : NoDup (flat_regs [rA; rB; rS; rSB; rC; rAnc]).
Proof using names.
  pose proof names as H. rewrite !NoDup_cons, !not_elem_of_cons in H.
  destruct_and!. cbn. solve_NoDup.
Qed.

Lemma main_circuit_slots negate :
  ∃ p st',
    main_circuit negate rA rB rS rSB rC rAnc = Ok p
    ∧ run p zero_state = Some st'
    ∧ ∀ i q, flat_regs [rA; rB; rS; rSB; rC; rAnc] !! i = Some q →
             st' q = run_ops (main_slots negate) (λ _, false) i.
Proof using names.
  assert (NoDup [rA; rB; rS; rSB; rC; rAnc]) as Hregs.
  { by apply (NoDup_fmap_1 reg_name). }
  unfold main_circuit.
  rewrite (_build_ok (__init__ rA rB rS rSB rC rAnc) Hregs eq_refl
             (mk_is_Some _ _ eq_refl)) by (unfold widths_ok; simpl; lia).
  destruct negate;
    (eexists _, _; split; [reflexivity |]; split;
     [apply run_decomposed; reflexivity |]);
    (match goal with |- context [run_ops ?l zero_state] => set (ops := l) end;
     intros i q Hi;
     match goal with |- context [main_slots ?b] =>
       assert (mapM (bind_op (flat_regs [rA; rB; rS; rSB; rC; rAnc])) (main_slots b)
               = Some ops) as Hmap by (vm_compute; reflexivity)
     end;
     destruct (run_ops_bind _ main_flat_regs_NoDup _ ops zero_state Hmap) as [Hloc _];
     rewrite <- (local_state_lookup _ _ _ _ Hi), Hloc;
     apply run_ops_ext, local_state_zero).
Qed.
End worked_example.

(** C3, amended.  For the 3-bit ALU (six registers of distinct names, of
    widths 3, 3, 3, 1, 3, 3) with A = 001, B = 001 and every other wire 0:
    with SB = 0 the program leaves S = 010 and the final carry C[2] = 0; with
    SB = 1 it leaves B' = 110 in register B and, SB being the carry-in of
    bit 0 as well, S = (001 + 110 + 1) mod 8 = 000 with C[2] = 1.
    (Registers are read from offset 0.) *)
Theorem main_example
    (registerA registerB registerS registerSB registerC registerAnc : QuantumRegister) :
  NoDup (reg_name <$> [registerA; registerB; registerS; registerSB; registerC;
                       registerAnc]) →
  reg_size registerA = 3 → reg_size registerB = 3 → reg_size registerS = 3 →
  reg_size registerSB = 1 → reg_size registerC = 3 → reg_size registerAnc = 3 →
  (∃ p st',
     main_circuit false registerA registerB registerS registerSB registerC
                  registerAnc = Ok p
     ∧ run p zero_state = Some st'
     ∧ read st' registerA = [true; false; false]
     ∧ read st' registerB = [true; false; false]
     ∧ read st' registerSB = [false]
     ∧ read st' registerS = [false; true; false]
     ∧ st' (registerC, 2) = false)
  ∧ (∃ p st',
       main_circuit true registerA registerB registerS registerSB registerC
                    registerAnc = Ok p
       ∧ run p zero_state = Some st'
       ∧ read st' registerA = [true; false; false]
       ∧ read st' registerB = [false; true; true]
       ∧ read st' registerSB = [true]
       ∧ read st' registerS = [false; false; false]
       ∧ st' (registerC, 2) = true).
Proof.
  destruct registerA as [? nA], registerB as [? nB], registerS as [? nS],
    registerSB as [? nSB], registerC as [? nC], registerAnc as [? nAnc].
  simpl. intros Hnames -> -> -> -> -> ->.
  split;
    [ destruct (main_circuit_slots nA nB nS nSB nC nAnc Hnames false)
        as (p & st' & Hp & Hrun & Hq)
    | destruct (main_circuit_slots nA nB nS nSB nC nAnc Hnames true)
        as (p & st' & Hp & Hrun & Hq) ];
    (exists p, st'; split; [done |]; split; [done |];
     unfold read; simpl;
     rewrite (Hq 0 _ eq_refl), (Hq 1 _ eq_refl), (Hq 2 _ eq_refl),
       (Hq 3 _ eq_refl), (Hq 4 _ eq_refl), (Hq 5 _ eq_refl),
       (Hq 6 _ eq_refl), (Hq 7 _ eq_refl), (Hq 8 _ eq_refl),
       (Hq 9 _ eq_refl), (Hq 12 _ eq_refl);
     by vm_compute).
Qed.

Lemma main_example_witness :
  (∃ p st',
     main_circuit false main_registerA main_registerB main_registerS
                  main_registerSB main_registerC main_registerAnc = Ok p
     ∧ run p zero_state = Some st'
     ∧ read st' main_registerA = [true; false; false]
     ∧ read st' main_registerB = [true; false; false]
     ∧ read st' main_registerSB = [false]
     ∧ read st' main_registerS = [false; true; false]
     ∧ st' (main_registerC, 2) = false)
  ∧ (∃ p st',
       main_circuit true main_registerA main_registerB main_registerS
                    main_registerSB main_registerC main_registerAnc = Ok p
       ∧ run p zero_state = Some st'
       ∧ read st' main_registerA = [true; false; false]
       ∧ read st' main_registerB = [false; true; true]
       ∧ read st' main_registerSB = [true]
       ∧ read st' main_registerS = [false; false; false]
       ∧ st' (main_registerC, 2) = true).
Proof.
  apply (main_example main_registerA main_registerB main_registerS
           main_registerSB main_registerC main_registerAnc);
    [solve_NoDup | reflexivity..].
Defined.

(** * Further properties of the code *)

(** ** The gates from any entry state *)

Lemma FullAdder_define_run_any (st : nat → bool) :
  let st' := run_ops FullAdder_define st in
  st' 0 = st 0 ∧ st' 1 = st 1 ∧ st' 2 = st 2
  ∧ st' 5 = xorb (st 5) (xorb (st 0) (st 1))
  ∧ st' 4 = xorb (st 4) (xorb (st 2) (st' 5))
  ∧ st' 6 = xorb (st 6) (st 0 && st 1)
  ∧ st' 7 = xorb (st 7) (st 2 && st' 5)
  ∧ st' 3 = xorb (st 3) (st' 7 || st' 6).
Proof.
  cbv. by destruct (st 0), (st 1), (st 2), (st 3), (st 4), (st 5), (st 6), (st 7).
Qed.

Lemma FullAdder_ops_run (a b cin cout sum s1 s2 s3 : Qubit) (st : State) :
  NoDup [a; b; cin; cout; sum; s1; s2; s3] →
  let st' := run_ops (FullAdder_ops a b cin cout sum s1 s2 s3) st in
  st' a = st a ∧ st' b = st b ∧ st' cin = st cin
  ∧ st' s1 = xorb (st s1) (xorb (st a) (st b))
  ∧ st' sum = xorb (st sum) (xorb (st cin) (st' s1))
  ∧ st' s2 = xorb (st s2) (st a && st b)
  ∧ st' s3 = xorb (st s3) (st cin && st' s1)
  ∧ st' cout = xorb (st cout) (st' s3 || st' s2)
  ∧ ∀ q, q ∉ [a; b; cin; cout; sum; s1; s2; s3] → st' q = st q.
Proof.
  intros Hnd st'. set (qargs := [a; b; cin; cout; sum; s1; s2; s3]).
  destruct (run_ops_bind qargs Hnd FullAdder_define
              (FullAdder_ops a b cin cout sum s1 s2 s3) st eq_refl) as [Hloc Hframe].
  pose proof (FullAdder_define_run_any (local_state qargs st)) as H.
  cbv zeta in H. rewrite <- !Hloc in H.
  destruct H as (?&?&?&?&?&?&?&?). by repeat split.
Qed.

(** ** One adder stage *)

Section adder_stage.
Variables qr_A qr_B qr_S qr_SB qr_carry qr_ancilla : QuantumRegister.
Hypothesis distinct : NoDup [qr_A; qr_B; qr_S; qr_SB; qr_carry; qr_ancilla].

Lemma adder_stage_ops_eq i :
  adder_stage_ops qr_A qr_B qr_S qr_SB qr_carry qr_ancilla i
  = FullAdder_ops (qr_A, i) (qr_B, i) (carry_in qr_SB qr_carry i) (qr_carry, i)
      (qr_S, i) (qr_ancilla, 0) (qr_ancilla, 1) (qr_ancilla, 2)
    ++ [Reset (qr_ancilla, 0); Reset (qr_ancilla, 1); Reset (qr_ancilla, 2)].
Proof. done. Qed.

Lemma adder_stage_NoDup i :
  NoDup [(qr_A, i); (qr_B, i); carry_in qr_SB qr_carry i; (qr_carry, i);
         (qr_S, i); (qr_ancilla, 0); (qr_ancilla, 1); (qr_ancilla, 2)].
Proof using distinct.
  destruct (distinct_pairs _ _ _ _ _ _ distinct)
    as ((?&?&?&?&?) & (?&?&?&?) & (?&?&?) & (?&?) & ?).
  unfold carry_in. destruct (i =? 0) eqn:Ei; [| apply Nat.eqb_neq in Ei]; solve_NoDup.
Qed.

(** Stage [i] from a state whose ancillas and whose own sum and carry wires
    are 0: the sum and carry of bit [i], the ancillas back at 0, nothing else
    changed. *)
Lemma adder_stage_run (st : State) i :
  st (qr_ancilla, 0) = false → st (qr_ancilla, 1) = false →
  st (qr_ancilla, 2) = false →
  st (qr_S, i) = false → st (qr_carry, i) = false →
  let cin := st (carry_in qr_SB qr_carry i) in
  let st' := run_ops (adder_stage_ops qr_A qr_B qr_S qr_SB qr_carry qr_ancilla i) st in
  st' (qr_S, i) = xorb (xorb (st (qr_A, i)) (st (qr_B, i))) cin
  ∧ st' (qr_carry, i) = majority (st (qr_A, i)) (st (qr_B, i)) cin
  ∧ ∀ q, q ≠ (qr_S, i) → q ≠ (qr_carry, i) → st' q = st q.
Proof using distinct.
  intros H0 H1 H2 HS HC cin st'.
  destruct (distinct_pairs _ _ _ _ _ _ distinct)
    as ((?&?&?&?&?) & (?&?&?&?) & (?&?&?) & (?&?) & ?).
  pose proof (FullAdder_ops_run _ _ _ _ _ _ _ _ st (adder_stage_NoDup i)) as Hfa.
  cbv zeta in Hfa. subst st'. rewrite adder_stage_ops_eq, run_ops_app.
  set (st1 := run_ops (FullAdder_ops _ _ _ _ _ _ _ _) st) in *.
  destruct Hfa as (Ha & Hb & Hcin & Hs1 & Hsum & Hs2 & Hs3 & Hcout & Hframe).
  rewrite H0, H1, H2, HS, HC in *. clearbody st1.
  assert ((qr_S, i) ≠ (qr_ancilla, 0) ∧ (qr_S, i) ≠ (qr_ancilla, 1)
          ∧ (qr_S, i) ≠ (qr_ancilla, 2) ∧ (qr_carry, i) ≠ (qr_ancilla, 0)
          ∧ (qr_carry, i) ≠ (qr_ancilla, 1) ∧ (qr_carry, i) ≠ (qr_ancilla, 2))
    as (?&?&?&?&?&?) by (repeat split; congruence).
  cbn. repeat split.
  - fn_simpl. rewrite Hsum, Hs1. subst cin.
    by destruct (st (qr_A, i)), (st (qr_B, i)), (st (carry_in qr_SB qr_carry i)).
  - fn_simpl. rewrite Hcout, Hs3, Hs2, Hs1. subst cin.
    by destruct (st (qr_A, i)), (st (qr_B, i)), (st (carry_in qr_SB qr_carry i)).
  - intros q Hq1 Hq2.
    destruct (decide (q = (qr_ancilla, 2))) as [-> |]; [by fn_simpl |].
    destruct (decide (q = (qr_ancilla, 1))) as [-> |]; [by fn_simpl |].
    destruct (decide (q = (qr_ancilla, 0))) as [-> |]; [by fn_simpl |].
    fn_simpl.
    destruct (decide (q = (qr_A, i))) as [-> |]; [done |].
    destruct (decide (q = (qr_B, i))) as [-> |]; [done |].
    destruct (decide (q = carry_in qr_SB qr_carry i)) as [-> |]; [done |].
    apply Hframe. rewrite !not_elem_of_cons.
    repeat split; first [done | apply not_elem_of_nil].
Qed.

(** The first [k] stages in sequence, from a state whose ancillas and whose
    sum and carry wires of those stages are 0. *)
Lemma adder_stages_run (st : State) k :
  st (qr_ancilla, 0) = false → st (qr_ancilla, 1) = false →
  st (qr_ancilla, 2) = false →
  (∀ i, i < k → st (qr_S, i) = false ∧ st (qr_carry, i) = false) →
  let a := λ i, st (qr_A, i) in
  let b := λ i, st (qr_B, i) in
  let c0 := st (qr_SB, 0) in
  let st' := run_ops (concat (adder_stage_ops qr_A qr_B qr_S qr_SB qr_carry qr_ancilla
                                <$> seq 0 k)) st in
  (∀ i, i < k →
     st' (qr_S, i) = sum_bit a b c0 i ∧ st' (qr_carry, i) = carry_bit a b c0 (S i))
  ∧ ∀ q, (∀ i, i < k → q ≠ (qr_S, i) ∧ q ≠ (qr_carry, i)) → st' q = st q.
Proof using distinct.
  intros H0 H1 H2. cbv zeta.
  destruct (distinct_pairs _ _ _ _ _ _ distinct)
    as ((?&?&?&?&?) & (?&?&?&?) & (?&?&?) & (?&?) & ?).
  induction k as [|k IH]; intros Hzero.
  { split; [intros; lia | done]. }
  rewrite seq_S, fmap_app, concat_app, run_ops_app.
  change (concat (adder_stage_ops qr_A qr_B qr_S qr_SB qr_carry qr_ancilla <$> [0 + k]))
    with (adder_stage_ops qr_A qr_B qr_S qr_SB qr_carry qr_ancilla k ++ []).
  rewrite app_nil_r.
  destruct IH as [IHbits IHframe]; [intros; apply Hzero; lia |].
  set (stk := run_ops (concat _) st) in *. clearbody stk.
  assert (∀ r j, r ≠ qr_S → r ≠ qr_carry → stk (r, j) = st (r, j)) as Hreg.
  { intros r j ? ?. apply IHframe. intros; split; congruence. }
  assert (stk (carry_in qr_SB qr_carry k)
          = carry_bit (λ i, st (qr_A, i)) (λ i, st (qr_B, i)) (st (qr_SB, 0)) k)
    as Hcin.
  { unfold carry_in. destruct k as [|k]; simpl; [by apply Hreg |].
    rewrite Nat.sub_0_r. by destruct (IHbits k ltac:(lia)) as [_ ?]. }
  destruct (adder_stage_run stk k) as (HS & HC & Hframe).
  { by rewrite Hreg. } { by rewrite Hreg. } { by rewrite Hreg. }
  { rewrite IHframe; [apply Hzero; lia |]. intros i ?. split; intros [=]; lia. }
  { rewrite IHframe; [apply Hzero; lia |]. intros i ?. split; intros [=]; lia. }
  rewrite Hcin, !Hreg in HS, HC by done. split.
  - intros i Hi. destruct (decide (i = k)) as [-> | Hne]; [done |].
    rewrite !Hframe by (intros [=]; congruence). apply IHbits. lia.
  - intros q Hq. rewrite Hframe by (apply Hq; lia). apply IHframe.
    intros i ?. apply Hq. lia.
Qed.
End adder_stage.

(** ** Ripple-carry arithmetic *)

Lemma carry_bit_ext (a a' b b' : nat → bool) c0 k :
  (∀ i, i < k → a i = a' i ∧ b i = b' i) →
  carry_bit a b c0 k = carry_bit a' b' c0 k.
Proof.
  induction k as [|k IH]; intros H; [done |]. simpl.
  destruct (H k) as [-> ->]; [lia |]. rewrite IH; [done |]. intros; apply H; lia.
Qed.

Lemma sum_bit_ext (a a' b b' : nat → bool) c0 k :
  (∀ i, i ≤ k → a i = a' i ∧ b i = b' i) →
  sum_bit a b c0 k = sum_bit a' b' c0 k.
Proof.
  intros H. unfold sum_bit. destruct (H k) as [-> ->]; [lia |].
  rewrite (carry_bit_ext a a' b b'); [done |]. intros; apply H; lia.
Qed.

Lemma bits_value_app l x :
  bits_value (l ++ [x]) = bits_value l + 2 ^ length l * Nat.b2n x.
Proof.
  induction l as [|y l IH]; simpl; [lia |]. rewrite IH. lia.
Qed.

Lemma bits_value_lt l : bits_value l < 2 ^ length l.
Proof. induction l as [|[] l IH]; simpl; lia. Qed.

Lemma ripple_value (a b : nat → bool) c0 n :
  bits_value (sum_bit a b c0 <$> seq 0 n) + 2 ^ n * Nat.b2n (carry_bit a b c0 n)
  = bits_value (a <$> seq 0 n) + bits_value (b <$> seq 0 n) + Nat.b2n c0.
Proof.
  induction n as [|n IH]; [simpl; lia |].
  rewrite seq_S, !fmap_app. simpl. rewrite !bits_value_app, !length_fmap, !length_seq.
  unfold sum_bit at 2.
  destruct (a n), (b n), (carry_bit a b c0 n); simpl in *; lia.
Qed.

Lemma bits_value_negate (l : list bool) :
  bits_value ((λ b, xorb b true) <$> l) + bits_value l + 1 = 2 ^ length l.
Proof.
  induction l as [|x l IH]; [done |].
  rewrite fmap_cons. cbn [bits_value length]. rewrite Nat.pow_succ_r'.
  destruct x; simpl Nat.b2n; lia.
Qed.

Lemma fmap_xorb_false (l : list bool) : (λ b, xorb b false) <$> l = l.
Proof. induction l as [|x l IH]; [done |]. rewrite fmap_cons, IH. by destruct x. Qed.

(** ** The whole ALU *)

Section ALU.
Variables rA rB rS rSB rC rAnc : QuantumRegister.
Hypothesis names : NoDup (reg_name <$> [rA; rB; rS; rSB; rC; rAnc]).
Hypothesis widths : widths_ok rA rB rS rSB rC rAnc.

(** The built program from a state whose ancillas and sum and carry wires are
    0, bit by bit. *)
Lemma ALU_run (st : State) :
  st (rAnc, 0) = false → st (rAnc, 1) = false → st (rAnc, 2) = false →
  (∀ i, i < reg_size rA → st (rS, i) = false ∧ st (rC, i) = false) →
  ∃ self' p st',
    _build (__init__ rA rB rS rSB rC rAnc) = (Ok (), self')
    ∧ _data self' = Some p
    ∧ run p st = Some st'
    ∧ (∀ i, i < reg_size rA →
         st' (rS, i) = sum_bit (operand_A st rA) (operand_B st rB rSB) (st (rSB, 0)) i
         ∧ st' (rC, i)
           = carry_bit (operand_A st rA) (operand_B st rB rSB) (st (rSB, 0)) (S i))
    ∧ (∀ i, i < reg_size rB → st' (rB, i) = operand_B st rB rSB i)
    ∧ ∀ q, q.1 ≠ rB →
           (∀ i, i < reg_size rA → q ≠ (rS, i) ∧ q ≠ (rC, i)) → st' q = st q.
Proof using names widths.
  intros H0 H1 H2 Hzero.
  pose proof (NoDup_fmap_1 _ _ names) as Hregs.
  destruct (distinct_pairs _ _ _ _ _ _ Hregs)
    as ((?&?&?&?&?) & (?&?&?&?) & (?&?&?) & (?&?) & ?).
  exists (set_data (Some (negate_program rB rSB rAnc
                          ++ adder_program rA rB rS rSB rC rAnc))
            (__init__ rA rB rS rSB rC rAnc)),
    (negate_program rB rSB rAnc ++ adder_program rA rB rS rSB rC rAnc),
    (run_ops (concat (negate_bit_ops rB rSB rAnc <$> seq 0 (reg_size rB))
              ++ concat (adder_stage_ops rA rB rS rSB rC rAnc
                           <$> seq 0 (reg_size rA))) st).
  split.
  { apply (_build_ok (__init__ rA rB rS rSB rC rAnc) Hregs eq_refl
             (mk_is_Some _ _ eq_refl) widths). }
  split; [reflexivity |]. split.
  { apply run_decomposed, decompose_app;
      [apply decompose_negate_program | apply decompose_adder_program]. }
  rewrite run_ops_app.
  destruct (negate_bits_run rB rSB rAnc ltac:(done) ltac:(done) ltac:(done)
              (seq 0 (reg_size rB)) st (NoDup_seq _ _) H0) as (Ha & Hb & Hf).
  set (st1 := run_ops (concat (negate_bit_ops _ _ _ <$> _)) st) in *. clearbody st1.
  assert (∀ r j, r ≠ rB → r ≠ rAnc → st1 (r, j) = st (r, j)) as Hreg.
  { intros r j ? ?. apply Hf; [congruence |]. intros i _. congruence. }
  assert (∀ j, j ≠ 0 → st1 (rAnc, j) = st (rAnc, j)) as Hanc.
  { intros j ?. apply Hf; [congruence |]. intros i _. congruence. }
  destruct (adder_stages_run rA rB rS rSB rC rAnc Hregs st1 (reg_size rA))
    as [Hbits Hframe].
  { done. } { by rewrite Hanc. } { by rewrite Hanc. }
  { intros i Hi. rewrite !Hreg by done. by apply Hzero. }
  assert (∀ i, i < reg_size rA → i < reg_size rB) as HAB.
  { intros i Hi. destruct widths as [_ [? | (? & _)]]; lia. }
  assert (∀ i, i < reg_size rA →
            st1 (rA, i) = operand_A st rA i ∧ st1 (rB, i) = operand_B st rB rSB i)
    as Hop.
  { intros i Hi. split; [by apply Hreg |]. apply Hb, elem_of_seq. specialize (HAB i). lia. }
  repeat split.
  - destruct (Hbits i) as [-> _]; [done |]. rewrite Hreg by done.
    apply sum_bit_ext. intros j ?. apply Hop. lia.
  - destruct (Hbits i) as [_ ->]; [done |]. rewrite Hreg by done.
    apply carry_bit_ext. intros j ?. apply Hop. lia.
  - intros i Hi. rewrite Hframe by (intros; split; congruence).
    apply Hb, elem_of_seq. lia.
  - intros [r j] Hr Hq. simpl in Hr. rewrite Hframe by done.
    destruct (decide ((r, j) = (rAnc, 0))) as [-> |]; [congruence |].
    apply Hf; [done |]. intros i _. congruence.
Qed.
End ALU.

Lemma fmap_seq_ext {A} (f g : nat → A) n :
  (∀ i, i < n → f i = g i) → f <$> seq 0 n = g <$> seq 0 n.
Proof.
  intros H. apply list_fmap_ext. intros i x Hx.
  apply lookup_seq in Hx as [-> ?]. by apply H.
Qed.

Section ALU_arithmetic.
Variables rA rB rS rSB rC rAnc : QuantumRegister.
Variable N : nat.
Hypothesis names : NoDup (reg_name <$> [rA; rB; rS; rSB; rC; rAnc]).
Hypothesis N_pos : 0 < N.
Hypothesis size_A : reg_size rA = N.
Hypothesis size_B : reg_size rB = N.
Hypothesis size_S : reg_size rS = N.
Hypothesis size_SB : reg_size rSB = 1.
Hypothesis size_C : reg_size rC = N.
Hypothesis size_Anc : 3 ≤ reg_size rAnc.

Lemma ALU_widths_ok : widths_ok rA rB rS rSB rC rAnc.
Proof using N_pos size_A size_B size_S size_SB size_C size_Anc.
  unfold widths_ok. lia.
Qed.

(** The built program on registers of width [N], read as numbers. *)
Lemma ALU_value (st : State) :
  st (rAnc, 0) = false → st (rAnc, 1) = false → st (rAnc, 2) = false →
  read st rS = replicate N false → read st rC = replicate N false →
  ∃ self' p st',
    _build (__init__ rA rB rS rSB rC rAnc) = (Ok (), self')
    ∧ _data self' = Some p
    ∧ run p st = Some st'
    ∧ bits_value (read st' rS) + 2 ^ N * Nat.b2n (st' (rC, N - 1))
      = bits_value (read st rA)
        + bits_value ((λ b, xorb b (st (rSB, 0))) <$> read st rB)
        + Nat.b2n (st (rSB, 0))
    ∧ read st' rA = read st rA
    ∧ read st' rB = (λ b, xorb b (st (rSB, 0))) <$> read st rB
    ∧ read st' rSB = read st rSB
    ∧ read st' rAnc = read st rAnc.
Proof using All.
  intros H0 H1 H2 HS HC.
  pose proof (NoDup_fmap_1 _ _ names) as Hregs.
  destruct (distinct_pairs _ _ _ _ _ _ Hregs)
    as ((?&?&?&?&?) & (?&?&?&?) & (?&?&?) & (?&?) & ?).
  assert (∀ i, i < reg_size rA → st (rS, i) = false ∧ st (rC, i) = false) as Hzero.
  { intros i Hi. unfold read in HS, HC. rewrite size_S in HS. rewrite size_C in HC.
    split.
    - apply (f_equal (λ l, l !! i)) in HS.
      rewrite list_lookup_fmap, lookup_seq_lt, lookup_replicate_2 in HS by lia.
      by injection HS.
    - apply (f_equal (λ l, l !! i)) in HC.
      rewrite list_lookup_fmap, lookup_seq_lt, lookup_replicate_2 in HC by lia.
      by injection HC. }
  destruct (ALU_run rA rB rS rSB rC rAnc names ALU_widths_ok st H0 H1 H2 Hzero)
    as (self' & p & st' & Hb & Hd & Hrun & Hbits & HB & Hframe).
  exists self', p, st'. split; [done |]. split; [done |]. split; [done |].
  assert (∀ r, r ≠ rB → r ≠ rS → r ≠ rC → read st' r = read st r) as Hread.
  { intros r ? ? ?. unfold read. apply fmap_seq_ext. intros i _.
    apply Hframe; [done |]. intros j _. split; congruence. }
  split; [| split; [by apply Hread | split; [| split; by apply Hread]]].
  - pose proof (ripple_value (operand_A st rA) (operand_B st rB rSB) (st (rSB, 0)) N)
      as Hv.
    assert (read st' rS
            = sum_bit (operand_A st rA) (operand_B st rB rSB) (st (rSB, 0)) <$> seq 0 N)
      as ->.
    { unfold read. rewrite size_S. apply fmap_seq_ext. intros i Hi.
      apply Hbits. lia. }
    destruct (Hbits (N - 1)) as [_ ->]; [lia |].
    replace (S (N - 1)) with N by lia. rewrite Hv.
    unfold read. rewrite size_A, size_B, <- list_fmap_compose. done.
  - unfold read. rewrite <- list_fmap_compose. apply fmap_seq_ext.
    intros i Hi. by apply HB.
Qed.
End ALU_arithmetic.

(** X1.  Built on six registers of distinct names whose widths let [_build]
    run to completion, and executed from a state whose three ancillas and
    whose sum and carry wires are 0, the ALU leaves in S[i] and C[i] the sum
    bit and the carry-out of bit i of A + (B XOR SB) with carry-in SB, the
    carry of each stage feeding the next; B is left holding B XOR SB, and no
    other qubit changes. *)
Theorem ALU_ripple_carry (rA rB rS rSB rC rAnc : QuantumRegister) (st : State) :
  NoDup (reg_name <$> [rA; rB; rS; rSB; rC; rAnc]) →
  widths_ok rA rB rS rSB rC rAnc →
  st (rAnc, 0) = false → st (rAnc, 1) = false → st (rAnc, 2) = false →
  (∀ i, i < reg_size rA → st (rS, i) = false ∧ st (rC, i) = false) →
  ∃ self' p st',
    _build (__init__ rA rB rS rSB rC rAnc) = (Ok (), self')
    ∧ _data self' = Some p
    ∧ run p st = Some st'
    ∧ (∀ i, i < reg_size rA →
         st' (rS, i) = sum_bit (operand_A st rA) (operand_B st rB rSB) (st (rSB, 0)) i
         ∧ st' (rC, i)
           = carry_bit (operand_A st rA) (operand_B st rB rSB) (st (rSB, 0)) (S i))
    ∧ (∀ i, i < reg_size rB → st' (rB, i) = operand_B st rB rSB i)
    ∧ ∀ q, q.1 ≠ rB →
           (∀ i, i < reg_size rA → q ≠ (rS, i) ∧ q ≠ (rC, i)) → st' q = st q.
Proof. intros. by apply ALU_run. Qed.

Lemma ALU_ripple_carry_witness :
  let st : State := <[(main_registerA, 0) := true]>
                      (<[(main_registerB, 0) := true]> zero_state) in
  ∃ self' p st',
    _build (__init__ main_registerA main_registerB main_registerS main_registerSB
                     main_registerC main_registerAnc) = (Ok (), self')
    ∧ _data self' = Some p
    ∧ run p st = Some st'
    ∧ (∀ i, i < reg_size main_registerA →
         st' (main_registerS, i)
         = sum_bit (operand_A st main_registerA)
             (operand_B st main_registerB main_registerSB)
             (st (main_registerSB, 0)) i
         ∧ st' (main_registerC, i)
           = carry_bit (operand_A st main_registerA)
               (operand_B st main_registerB main_registerSB)
               (st (main_registerSB, 0)) (S i))
    ∧ (∀ i, i < reg_size main_registerB →
         st' (main_registerB, i) = operand_B st main_registerB main_registerSB i)
    ∧ ∀ q, q.1 ≠ main_registerB →
           (∀ i, i < reg_size main_registerA →
              q ≠ (main_registerS, i) ∧ q ≠ (main_registerC, i)) →
           st' q = st q.
Proof.
  intros st.
  apply (ALU_ripple_carry main_registerA main_registerB main_registerS
           main_registerSB main_registerC main_registerAnc st);
    [solve_NoDup | unfold widths_ok; simpl; lia | reflexivity.. | ].
  intros i _. split; reflexivity.
Defined.

(** X2.  Addition.  On registers A, B, S, C of one width N > 0, SB of width 1
    and at least 3 ancillas (names distinct), from a state with SB = 0 and
    S, C and the three ancillas at 0, the ALU leaves S = (A + B) mod 2^N and
    the last carry C[N-1] set exactly when A + B overflows N bits; A and B
    are unchanged. *)
Theorem ALU_addition (rA rB rS rSB rC rAnc : QuantumRegister) (N : nat) (st : State) :
  NoDup (reg_name <$> [rA; rB; rS; rSB; rC; rAnc]) →
  0 < N →
  reg_size rA = N → reg_size rB = N → reg_size rS = N → reg_size rSB = 1 →
  reg_size rC = N → 3 ≤ reg_size rAnc →
  st (rAnc, 0) = false → st (rAnc, 1) = false → st (rAnc, 2) = false →
  read st rS = replicate N false → read st rC = replicate N false →
  st (rSB, 0) = false →
  ∃ self' p st',
    _build (__init__ rA rB rS rSB rC rAnc) = (Ok (), self')
    ∧ _data self' = Some p
    ∧ run p st = Some st'
    ∧ bits_value (read st' rS)
      = (bits_value (read st rA) + bits_value (read st rB)) mod 2 ^ N
    ∧ (st' (rC, N - 1) = true
       ↔ 2 ^ N ≤ bits_value (read st rA) + bits_value (read st rB))
    ∧ read st' rA = read st rA
    ∧ read st' rB = read st rB.
Proof.
  intros Hnames HN HA HB HS HSB HC HAnc H0 H1 H2 HS0 HC0 Hsb.
  destruct (ALU_value rA rB rS rSB rC rAnc N Hnames HN HA HB HS HSB HC HAnc
              st H0 H1 H2 HS0 HC0)
    as (self' & p & st' & Hb & Hd & Hrun & Hv & HrA & HrB & _).
  exists self', p, st'. rewrite Hsb, fmap_xorb_false in *. simpl in Hv.
  pose proof (bits_value_lt (read st' rS)) as Hlt.
  unfold read in Hlt at 2. rewrite length_fmap, length_seq, HS in Hlt.
  repeat split; try done.
  - apply (Nat.mod_unique _ _ (Nat.b2n (st' (rC, N - 1)))); lia.
  - intros Hc. rewrite Hc in Hv. simpl in Hv. lia.
  - intros Hle. destruct (st' (rC, N - 1)); [done |]. simpl in Hv. lia.
Qed.

(** X3.  Subtraction.  Under the same conditions but with SB = 1, the ALU
    leaves S = (A - B) mod 2^N (two's complement: A + not B + 1) and the last
    carry C[N-1] set exactly when B <= A, that is when there is no borrow;
    A is unchanged and B is left bitwise negated. *)
Theorem ALU_subtraction (rA rB rS rSB rC rAnc : QuantumRegister) (N : nat) (st : State) :
  NoDup (reg_name <$> [rA; rB; rS; rSB; rC; rAnc]) →
  0 < N →
  reg_size rA = N → reg_size rB = N → reg_size rS = N → reg_size rSB = 1 →
  reg_size rC = N → 3 ≤ reg_size rAnc →
  st (rAnc, 0) = false → st (rAnc, 1) = false → st (rAnc, 2) = false →
  read st rS = replicate N false → read st rC = replicate N false →
  st (rSB, 0) = true →
  ∃ self' p st',
    _build (__init__ rA rB rS rSB rC rAnc) = (Ok (), self')
    ∧ _data self' = Some p
    ∧ run p st = Some st'
    ∧ bits_value (read st' rS)
      = (bits_value (read st rA) + 2 ^ N - bits_value (read st rB)) mod 2 ^ N
    ∧ (st' (rC, N - 1) = true ↔ bits_value (read st rB) ≤ bits_value (read st rA))
    ∧ read st' rA = read st rA
    ∧ read st' rB = negb <$> read st rB.
Proof.
  intros Hnames HN HA HB HS HSB HC HAnc H0 H1 H2 HS0 HC0 Hsb.
  destruct (ALU_value rA rB rS rSB rC rAnc N Hnames HN HA HB HS HSB HC HAnc
              st H0 H1 H2 HS0 HC0)
    as (self' & p & st' & Hb & Hd & Hrun & Hv & HrA & HrB & _).
  exists self', p, st'. rewrite Hsb in *. simpl in Hv.
  pose proof (bits_value_lt (read st' rS)) as Hlt.
  unfold read in Hlt at 2. rewrite length_fmap, length_seq, HS in Hlt.
  pose proof (bits_value_lt (read st rA)) as HltA.
  unfold read in HltA at 2. rewrite length_fmap, length_seq, HA in HltA.
  pose proof (bits_value_negate (read st rB)) as Hneg.
  unfold read in Hneg at 3. rewrite length_fmap, length_seq, HB in Hneg.
  assert (read st' rB = negb <$> read st rB) as HrB'.
  { rewrite HrB. apply list_fmap_ext. intros _ b _. by destruct b. }
  repeat split; try done.
  - apply (Nat.mod_unique _ _ (Nat.b2n (st' (rC, N - 1)))); lia.
  - intros Hc. rewrite Hc in Hv. simpl in Hv. lia.
  - intros Hle. destruct (st' (rC, N - 1)); [done |]. simpl in Hv. lia.
Qed.

Lemma ALU_addition_witness :
  let st : State := <[(main_registerA, 0) := true]>
                      (<[(main_registerA, 2) := true]>
                         (<[(main_registerB, 2) := true]> zero_state)) in
  ∃ self' p st',
    _build (__init__ main_registerA main_registerB main_registerS main_registerSB
                     main_registerC main_registerAnc) = (Ok (), self')
    ∧ _data self' = Some p
    ∧ run p st = Some st'
    ∧ bits_value (read st' main_registerS)
      = (bits_value (read st main_registerA) + bits_value (read st main_registerB))
          mod 2 ^ 3
    ∧ (st' (main_registerC, 3 - 1) = true
       ↔ 2 ^ 3 ≤ bits_value (read st main_registerA)
                 + bits_value (read st main_registerB))
    ∧ read st' main_registerA = read st main_registerA
    ∧ read st' main_registerB = read st main_registerB.
Proof.
  intros st.
  apply (ALU_addition main_registerA main_registerB main_registerS
           main_registerSB main_registerC main_registerAnc 3 st);
    [solve_NoDup | first [reflexivity | simpl; lia] ..].
Defined.

Lemma ALU_subtraction_witness :
  let st : State := <[(main_registerSB, 0) := true]>
                      (<[(main_registerA, 0) := true]>
                         (<[(main_registerB, 1) := true]> zero_state)) in
  ∃ self' p st',
    _build (__init__ main_registerA main_registerB main_registerS main_registerSB
                     main_registerC main_registerAnc) = (Ok (), self')
    ∧ _data self' = Some p
    ∧ run p st = Some st'
    ∧ bits_value (read st' main_registerS)
      = (bits_value (read st main_registerA) + 2 ^ 3
         - bits_value (read st main_registerB)) mod 2 ^ 3
    ∧ (st' (main_registerC, 3 - 1) = true
       ↔ bits_value (read st main_registerB) ≤ bits_value (read st main_registerA))
    ∧ read st' main_registerA = read st main_registerA
    ∧ read st' main_registerB = negb <$> read st main_registerB.
Proof.
  intros st.
  apply (ALU_subtraction main_registerA main_registerB main_registerS
           main_registerSB main_registerC main_registerAnc 3 st);
    [solve_NoDup | first [reflexivity | simpl; lia] ..].
Defined.

(** ** The gates from any entry state, bound to qubits *)

(** X4.  The full adder on eight distinct qubits, from any entry state: it
    never changes a, b or cin nor any qubit outside the eight; it XORs a XOR b
    into scratch1, cin XOR scratch1 into sum, a AND b into scratch2,
    cin AND scratch1 into scratch3 and scratch3 OR scratch2 into cout, each
    read after its own update.  With a scratch wire not 0 on entry the sum
    and carry are therefore corrupted silently, no exception is raised. *)
Theorem FullAdder_any_state (a b cin cout sum s1 s2 s3 : Qubit) (st : State) :
  NoDup [a; b; cin; cout; sum; s1; s2; s3] →
  ∃ st', run [Call FullAdder [a; b; cin; cout; sum; s1; s2; s3]] st = Some st'
    ∧ st' a = st a ∧ st' b = st b ∧ st' cin = st cin
    ∧ st' s1 = xorb (st s1) (xorb (st a) (st b))
    ∧ st' sum = xorb (st sum) (xorb (st cin) (st' s1))
    ∧ st' s2 = xorb (st s2) (st a && st b)
    ∧ st' s3 = xorb (st s3) (st cin && st' s1)
    ∧ st' cout = xorb (st cout) (st' s3 || st' s2)
    ∧ ∀ q, q ∉ [a; b; cin; cout; sum; s1; s2; s3] → st' q = st q.
Proof.
  intros Hnd. eexists. split; [by apply run_decomposed |].
  apply (FullAdder_ops_run a b cin cout sum s1 s2 s3 st Hnd).
Qed.

Lemma FullAdder_any_state_witness :
  let q := define_register FullAdder in
  let st : State := <[(q, 0) := true]> (<[(q, 5) := true]> zero_state) in
  ∃ st', run [Call FullAdder [(q, 0); (q, 1); (q, 2); (q, 3);
                              (q, 4); (q, 5); (q, 6); (q, 7)]] st = Some st'
    ∧ st' (q, 0) = st (q, 0) ∧ st' (q, 1) = st (q, 1) ∧ st' (q, 2) = st (q, 2)
    ∧ st' (q, 5) = xorb (st (q, 5)) (xorb (st (q, 0)) (st (q, 1)))
    ∧ st' (q, 4) = xorb (st (q, 4)) (xorb (st (q, 2)) (st' (q, 5)))
    ∧ st' (q, 6) = xorb (st (q, 6)) (st (q, 0) && st (q, 1))
    ∧ st' (q, 7) = xorb (st (q, 7)) (st (q, 2) && st' (q, 5))
    ∧ st' (q, 3) = xorb (st (q, 3)) (st' (q, 7) || st' (q, 6))
    ∧ ∀ q', q' ∉ [(q, 0); (q, 1); (q, 2); (q, 3); (q, 4); (q, 5); (q, 6); (q, 7)] →
            st' q' = st q'.
Proof.
  intros q st.
  apply (FullAdder_any_state (q, 0) (q, 1) (q, 2) (q, 3) (q, 4) (q, 5) (q, 6) (q, 7) st).
  solve_NoDup.
Defined.

Lemma HalfAdder_define_twice (st : nat → bool) i :
  run_ops (HalfAdder_define ++ HalfAdder_define) st i = st i.
Proof.
  destruct (decide (i = 2)) as [-> |];
    [cbv; by destruct (st 0), (st 1), (st 2) |].
  destruct (decide (i = 3)) as [-> |];
    [cbv; by destruct (st 0), (st 1), (st 2), (st 3) |].
  apply run_ops_frame. intros o Ho. unfold HalfAdder_define in Ho.
  repeat (apply elem_of_cons in Ho as [-> | Ho];
          [cbn; rewrite ?not_elem_of_cons; repeat split;
           first [apply not_elem_of_nil | done] |]).
  by apply elem_of_nil in Ho.
Qed.

(** X5.  The half adder is its own inverse: appended twice on the same four
    distinct qubits and executed from any entry state, it returns every qubit
    to its entry value; one application XORs a XOR b into sum and a AND b
    into carry. *)
Theorem HalfAdder_twice (a b sum carry : Qubit) (st : State) :
  NoDup [a; b; sum; carry] →
  ∃ st1 st2,
    run [Call HalfAdder [a; b; sum; carry]] st = Some st1
    ∧ st1 sum = xorb (st sum) (xorb (st a) (st b))
    ∧ st1 carry = xorb (st carry) (st a && st b)
    ∧ run [Call HalfAdder [a; b; sum; carry]; Call HalfAdder [a; b; sum; carry]] st
      = Some st2
    ∧ ∀ q, st2 q = st q.
Proof.
  intros Hnd. set (qargs := [a; b; sum; carry]).
  eexists _, _. split; [by apply run_decomposed |].
  match goal with |- context [run_ops ?l st] => set (ops := l) end.
  destruct (run_ops_bind qargs Hnd HalfAdder_define ops st eq_refl) as [Hloc _].
  split; [| split].
  - change (run_ops ops st sum) with (local_state qargs (run_ops ops st) 2).
    rewrite Hloc. cbv. by destruct (st a), (st b), (st sum).
  - change (run_ops ops st carry) with (local_state qargs (run_ops ops st) 3).
    rewrite Hloc. cbv. by destruct (st a), (st b), (st sum), (st carry).
  - split; [by apply run_decomposed |].
    match goal with |- context [run_ops ?l st] => set (ops2 := l) end.
    destruct (run_ops_bind qargs Hnd (HalfAdder_define ++ HalfAdder_define)
                ops2 st eq_refl) as [Hloc2 Hframe2].
    intros q. destruct (decide (q ∈ qargs)) as [Hq | Hq]; [| by apply Hframe2].
    apply list_elem_of_lookup in Hq as [i Hi].
    rewrite <- (local_state_lookup qargs (run_ops ops2 st) i q Hi), Hloc2.
    rewrite <- (local_state_lookup qargs st i q Hi).
    apply HalfAdder_define_twice.
Qed.

Lemma HalfAdder_twice_witness :
  let q := define_register HalfAdder in
  let st : State := <[(q, 0) := true]> (<[(q, 3) := true]> zero_state) in
  ∃ st1 st2,
    run [Call HalfAdder [(q, 0); (q, 1); (q, 2); (q, 3)]] st = Some st1
    ∧ st1 (q, 2) = xorb (st (q, 2)) (xorb (st (q, 0)) (st (q, 1)))
    ∧ st1 (q, 3) = xorb (st (q, 3)) (st (q, 0) && st (q, 1))
    ∧ run [Call HalfAdder [(q, 0); (q, 1); (q, 2); (q, 3)];
           Call HalfAdder [(q, 0); (q, 1); (q, 2); (q, 3)]] st = Some st2
    ∧ ∀ q', st2 q' = st q'.
Proof.
  intros q st.
  apply (HalfAdder_twice (q, 0) (q, 1) (q, 2) (q, 3) st). solve_NoDup.
Defined.

(** ** The built program as a whole *)

Lemma length_concat_fmap {A B} (f : A → list B) (l : list A) c :
  (∀ a, length (f a) = c) → length (concat (f <$> l)) = c * length l.
Proof.
  intros Hf. induction l as [|a l IH]; [simpl; lia |].
  rewrite fmap_cons. cbn [concat]. rewrite length_app, Hf, IH. simpl. lia.
Qed.

(** The program a completed [_build] leaves, whatever the registers. *)
Lemma _build_Ok_program rA rB rS rSB rC rAnc self' :
  _build (__init__ rA rB rS rSB rC rAnc) = (Ok (), self') →
  _data self' = Some (negate_program rB rSB rAnc
                      ++ adder_program rA rB rS rSB rC rAnc).
Proof.
  intros Hb.
  destruct (_build_yields (__init__ rA rB rS rSB rC rAnc) _ _ eq_refl Hb)
    as (p & -> & _ & Hp & _).
  by rewrite (Hp eq_refl).
Qed.

(** X6.  Reset barrier.  Whenever the ALU on at least one bit is built and
    executed, from any entry state whatever (ancillas dirty or not), the three
    ancillas are 0 at the end: the last operations of the program are the
    resets of the last stage. *)
Theorem ALU_ancillas_reset
    (rA rB rS rSB rC rAnc : QuantumRegister) (self' : NQubitALU) (st : State) :
  0 < reg_size rA →
  _build (__init__ rA rB rS rSB rC rAnc) = (Ok (), self') →
  ∃ p st',
    _data self' = Some p
    ∧ run p st = Some st'
    ∧ st' (rAnc, 0) = false ∧ st' (rAnc, 1) = false ∧ st' (rAnc, 2) = false.
Proof.
  intros HA Hb. apply _build_Ok_program in Hb.
  eexists _, _. split; [exact Hb |]. split.
  { apply run_decomposed, decompose_app;
      [apply decompose_negate_program | apply decompose_adder_program]. }
  destruct (reg_size rA) as [|k]; [lia |].
  rewrite seq_S, fmap_app, concat_app.
  change (concat (adder_stage_ops rA rB rS rSB rC rAnc <$> [0 + k]))
    with (adder_stage_ops rA rB rS rSB rC rAnc k ++ []).
  rewrite app_nil_r, adder_stage_ops_eq, !app_assoc, run_ops_app.
  cbn. by fn_simpl.
Qed.

Lemma ALU_ancillas_reset_witness :
  let st : State := <[(main_registerAnc, 1) := true]>
                      (<[(main_registerAnc, 0) := true]> zero_state) in
  ∃ self',
    _build (__init__ main_registerA main_registerB main_registerS main_registerSB
                     main_registerC main_registerAnc) = (Ok (), self')
    ∧ ∃ p st',
        _data self' = Some p
        ∧ run p st = Some st'
        ∧ st' (main_registerAnc, 0) = false ∧ st' (main_registerAnc, 1) = false
        ∧ st' (main_registerAnc, 2) = false.
Proof.
  intros st. eexists. split; [reflexivity |].
  apply (ALU_ancillas_reset main_registerA main_registerB main_registerS
           main_registerSB main_registerC main_registerAnc);
    [simpl; lia | reflexivity].
Defined.

(** X7.  Size of the circuit.  A completed [_build] leaves four instructions
    per qubit of B (the conditional negation) and four per qubit of A (one
    full adder and three resets); flattened, that is 4 |B| + 12 |A| primitive
    operations, 16 N for an N-bit ALU. *)
Theorem ALU_program_size
    (rA rB rS rSB rC rAnc : QuantumRegister) (self' : NQubitALU) :
  _build (__init__ rA rB rS rSB rC rAnc) = (Ok (), self') →
  ∃ p ops,
    _data self' = Some p
    ∧ decompose p = Some ops
    ∧ length p = 4 * reg_size rB + 4 * reg_size rA
    ∧ length ops = 4 * reg_size rB + 12 * reg_size rA.
Proof.
  intros Hb. apply _build_Ok_program in Hb.
  eexists _, _. split; [exact Hb |]. split.
  { apply decompose_app;
      [apply decompose_negate_program | apply decompose_adder_program]. }
  unfold negate_program, adder_program.
  rewrite !length_app, !(length_concat_fmap _ _ 4), (length_concat_fmap _ _ 12),
    !length_seq by done.
  done.
Qed.

Lemma ALU_program_size_witness :
  ∃ self',
    _build (__init__ main_registerA main_registerB main_registerS main_registerSB
                     main_registerC main_registerAnc) = (Ok (), self')
    ∧ ∃ p ops,
        _data self' = Some p
        ∧ decompose p = Some ops
        ∧ length p = 4 * reg_size main_registerB + 4 * reg_size main_registerA
        ∧ length ops = 4 * reg_size main_registerB + 12 * reg_size main_registerA.
Proof.
  eexists. split; [reflexivity |].
  apply (ALU_program_size main_registerA main_registerB main_registerS
           main_registerSB main_registerC main_registerAnc).
  reflexivity.
Defined.

(** X8.  [_build] is not idempotent.  Called again on a circuit it has
    already built (registers of distinct names), it skips the configuration
    check and appends the whole program a second time: the data is the
    program twice. *)
Theorem build_twice_appends_twice
    (rA rB rS rSB rC rAnc : QuantumRegister) (self1 : NQubitALU) :
  NoDup (reg_name <$> [rA; rB; rS; rSB; rC; rAnc]) →
  _build (__init__ rA rB rS rSB rC rAnc) = (Ok (), self1) →
  ∃ p self2,
    _data self1 = Some p
    ∧ _build self1 = (Ok (), self2)
    ∧ _data self2 = Some (p ++ p).
Proof.
  intros Hnd%NoDup_fmap_1 Hb.
  destruct (decide (widths_ok rA rB rS rSB rC rAnc)) as [Hw | Hw]; cycle 1.
  { destruct (_build_raises (__init__ rA rB rS rSB rC rAnc) Hnd eq_refl
                (mk_is_Some _ _ eq_refl) Hw) as (e & s & E & _).
    congruence. }
  rewrite (_build_ok (__init__ rA rB rS rSB rC rAnc) Hnd eq_refl
             (mk_is_Some _ _ eq_refl) Hw) in Hb.
  injection Hb as <-.
  destruct (distinct_pairs _ _ _ _ _ _ Hnd)
    as ((?&?&?&?&?) & (?&?&?&?) & (?&?&?) & (?&?) & ?).
  eexists _, _. split; [reflexivity |]. unfold _build. simpl.
  erewrite bind_ok by (apply negate_loop_ok; [done.. | apply Hw]).
  rewrite (adder_loop_ok _ _ _ _ _ _ Hnd) by apply Hw.
  split; [reflexivity |]. simpl. by rewrite <- app_assoc.
Qed.

Lemma build_twice_appends_twice_witness :
  ∃ self1,
    _build (__init__ main_registerA main_registerB main_registerS main_registerSB
                     main_registerC main_registerAnc) = (Ok (), self1)
    ∧ ∃ p self2,
        _data self1 = Some p
        ∧ _build self1 = (Ok (), self2)
        ∧ _data self2 = Some (p ++ p).
Proof.
  eexists. split; [reflexivity |].
  apply (build_twice_appends_twice main_registerA main_registerB main_registerS
           main_registerSB main_registerC main_registerAnc);
    [solve_NoDup | reflexivity].
Defined.

(** X9.  The number of qubits set through the [num_qubits] setter has no
    effect on what is built: after [__init__], setting it to any number, the
    outcome of [_build] and the data it leaves are those of the untouched
    object; the widths come from the registers alone.  Setting it to [None]
    makes [_build] raise at the configuration check. *)
Theorem build_ignores_num_qubits (rA rB rS rSB rC rAnc : QuantumRegister) (m : nat) :
  let self0 := __init__ rA rB rS rSB rC rAnc in
  let self := num_qubits_setter (Some m) self0 in
  (_build self).1 = (_build self0).1
  ∧ _data (_build self).2 = _data (_build self0).2
  ∧ (_build (num_qubits_setter None self0)).1
    = Raise (AttributeError "The input register has not been set.").
Proof.
  intros self0 self. split; [| split; [| done]].
  - subst self self0. unfold num_qubits_setter, __init__. simpl.
    case_bool_decide; [| done]. unfold _build. simpl.
    by destruct ((negate_loop rB rSB rAnc ≫= λ _, adder_loop rA rB rS rSB rC rAnc) [])
      as [[] ?].
  - subst self self0. unfold num_qubits_setter, __init__. simpl.
    case_bool_decide; [| done]. unfold _build. simpl.
    by destruct ((negate_loop rB rSB rAnc ≫= λ _, adder_loop rA rB rS rSB rC rAnc) [])
      as [[] ?].
Qed.

(** ** The two-qubit ALU *)

Lemma TwoQubitALU_12 :
  ∃ p ops,
    TwoQubitALU 12 = TwoQubitALU_circuit (Ok ()) p
    ∧ decompose p = Some ops
    ∧ mapM (bind_op (flat_regs [TwoQubitALU_q])) TwoQubitALU_slots = Some ops.
Proof. eexists _, _. split; [| split]; by vm_compute. Qed.

Lemma TwoQubitALU_q_NoDup : NoDup (flat_regs [TwoQubitALU_q]).
Proof. apply (bool_decide_unpack _). by vm_compute. Qed.

Lemma TwoQubitALU_slots_run (a0 a1 b0 b1 sb : bool) :
  let f := wires_of [a0; a1; b0; b1; false; false; false; false;
                     sb; false; false; false] in
  let a := wires_of [a0; a1] in
  let b := wires_of [xorb b0 sb; xorb b1 sb] in
  let f' := run_ops TwoQubitALU_slots f in
  (f' 0 = a0 ∧ f' 1 = a1 ∧ f' 8 = sb)
  ∧ (f' 2 = xorb b0 sb ∧ f' 3 = xorb b1 sb)
  ∧ (f' 4 = sum_bit a b sb 0 ∧ f' 5 = sum_bit a b sb 1)
  ∧ (f' 6 = carry_bit a b sb 1 ∧ f' 7 = carry_bit a b sb 2)
  ∧ (f' 9 = false ∧ f' 10 = false ∧ f' 11 = false).
Proof. by destruct a0, a1, b0, b1, sb; vm_compute. Qed.

(** The two-qubit ALU from any state whose sum, carry and ancilla wires are
    0. *)
Lemma TwoQubitALU_run (st : State) :
  let q := TwoQubitALU_q in
  st (q, 4) = false → st (q, 5) = false → st (q, 6) = false → st (q, 7) = false →
  st (q, 9) = false → st (q, 10) = false → st (q, 11) = false →
  let a := wires_of [st (q, 0); st (q, 1)] in
  let b := wires_of [xorb (st (q, 2)) (st (q, 8)); xorb (st (q, 3)) (st (q, 8))] in
  let sb := st (q, 8) in
  ∃ p st',
    TwoQubitALU 12 = TwoQubitALU_circuit (Ok ()) p
    ∧ run p st = Some st'
    ∧ (st' (q, 0) = st (q, 0) ∧ st' (q, 1) = st (q, 1) ∧ st' (q, 8) = sb)
    ∧ (st' (q, 2) = b 0 ∧ st' (q, 3) = b 1)
    ∧ (st' (q, 4) = sum_bit a b sb 0 ∧ st' (q, 5) = sum_bit a b sb 1)
    ∧ (st' (q, 6) = carry_bit a b sb 1 ∧ st' (q, 7) = carry_bit a b sb 2)
    ∧ (st' (q, 9) = false ∧ st' (q, 10) = false ∧ st' (q, 11) = false)
    ∧ ∀ q', q'.1 ≠ q → st' q' = st q'.
Proof.
  intros q H4 H5 H6 H7 H9 H10 H11 a b sb.
  destruct TwoQubitALU_12 as (p & ops & Hp & Hd & Hm).
  exists p, (run_ops ops st). split; [done |]. split; [by apply run_decomposed |].
  destruct (run_ops_bind _ TwoQubitALU_q_NoDup _ ops st Hm) as [Hloc Hframe].
  assert (∀ i, local_state (flat_regs [TwoQubitALU_q]) st i
               = wires_of [st (q, 0); st (q, 1); st (q, 2); st (q, 3);
                           false; false; false; false;
                           st (q, 8); false; false; false] i) as Hst.
  { intros i. do 12 (destruct i as [|i]; [by cbn; rewrite ?H4, ?H5, ?H6, ?H7, ?H9, ?H10, ?H11 |]).
    done. }
  assert (∀ i qi, flat_regs [TwoQubitALU_q] !! i = Some qi →
            run_ops ops st qi
            = run_ops TwoQubitALU_slots
                (wires_of [st (q, 0); st (q, 1); st (q, 2); st (q, 3);
                           false; false; false; false;
                           st (q, 8); false; false; false]) i) as Hq.
  { intros i qi Hi. rewrite <- (local_state_lookup _ _ _ _ Hi), Hloc.
    by apply run_ops_ext. }
  pose proof (TwoQubitALU_slots_run (st (q, 0)) (st (q, 1)) (st (q, 2)) (st (q, 3))
                (st (q, 8))) as Hrun.
  cbv zeta in Hrun.
  rewrite (Hq 0 (q, 0) eq_refl), (Hq 1 (q, 1) eq_refl), (Hq 2 (q, 2) eq_refl),
    (Hq 3 (q, 3) eq_refl), (Hq 4 (q, 4) eq_refl), (Hq 5 (q, 5) eq_refl),
    (Hq 6 (q, 6) eq_refl), (Hq 7 (q, 7) eq_refl), (Hq 8 (q, 8) eq_refl),
    (Hq 9 (q, 9) eq_refl), (Hq 10 (q, 10) eq_refl), (Hq 11 (q, 11) eq_refl).
  split; [apply Hrun |]. split; [apply Hrun |]. split; [apply Hrun |].
  split; [apply Hrun |]. split; [apply Hrun |].
  intros [r j] Hr. apply Hframe. intros Hin. apply Hr. simpl.
  cbn in Hin. repeat (apply elem_of_cons in Hin as [[= -> _] | Hin]; [done |]).
  by apply elem_of_nil in Hin.
Qed.

(** X10.  The hand-written two-qubit ALU adds.  [TwoQubitALU(12)] is built
    without any exception, and executed from any state whose sum wires
    (4, 5), carry wires (6, 7) and ancillas (9, 10, 11) are 0 it leaves
    s1 s0 + 4 c1 = a1 a0 + (b1 b0 XOR sb) + sb, with c0 the carry out of
    bit 0; a and sb are unchanged, b is left holding b XOR sb, the ancillas
    are back at 0, and no qubit outside the circuit changes. *)
Theorem TwoQubitALU_correct (st : State) :
  let q := TwoQubitALU_q in
  st (q, 4) = false → st (q, 5) = false → st (q, 6) = false → st (q, 7) = false →
  st (q, 9) = false → st (q, 10) = false → st (q, 11) = false →
  let sb := st (q, 8) in
  ∃ p st',
    TwoQubitALU 12 = TwoQubitALU_circuit (Ok ()) p
    ∧ run p st = Some st'
    ∧ bits_value [st' (q, 4); st' (q, 5)] + 4 * Nat.b2n (st' (q, 7))
      = bits_value [st (q, 0); st (q, 1)]
        + bits_value [xorb (st (q, 2)) sb; xorb (st (q, 3)) sb]
        + Nat.b2n sb
    ∧ st' (q, 6) = majority (st (q, 0)) (xorb (st (q, 2)) sb) sb
    ∧ (st' (q, 0) = st (q, 0) ∧ st' (q, 1) = st (q, 1) ∧ st' (q, 8) = sb)
    ∧ (st' (q, 2) = xorb (st (q, 2)) sb ∧ st' (q, 3) = xorb (st (q, 3)) sb)
    ∧ (st' (q, 9) = false ∧ st' (q, 10) = false ∧ st' (q, 11) = false)
    ∧ ∀ q', q'.1 ≠ q → st' q' = st q'.
Proof.
  intros q H4 H5 H6 H7 H9 H10 H11 sb.
  destruct (TwoQubitALU_run st H4 H5 H6 H7 H9 H10 H11)
    as (p & st' & Hp & Hrun & Ha & Hb & (HS0 & HS1) & (HC0 & HC1) & Hanc & Hframe).
  exists p, st'. split; [done |]. split; [done |].
  split; [| split; [| split; [exact Ha |]; split; [exact Hb |];
                        split; [exact Hanc | exact Hframe]]].
  - subst q sb. rewrite HS0, HS1, HC1.
    by destruct (st (TwoQubitALU_q, 0)), (st (TwoQubitALU_q, 1)),
      (st (TwoQubitALU_q, 2)), (st (TwoQubitALU_q, 3)), (st (TwoQubitALU_q, 8)).
  - subst q sb. by rewrite HC0.
Qed.

Lemma TwoQubitALU_correct_witness :
  let q := TwoQubitALU_q in
  let st : State := <[(q, 0) := true]> (<[(q, 3) := true]>
                      (<[(q, 8) := true]> zero_state)) in
  let sb := st (q, 8) in
  ∃ p st',
    TwoQubitALU 12 = TwoQubitALU_circuit (Ok ()) p
    ∧ run p st = Some st'
    ∧ bits_value [st' (q, 4); st' (q, 5)] + 4 * Nat.b2n (st' (q, 7))
      = bits_value [st (q, 0); st (q, 1)]
        + bits_value [xorb (st (q, 2)) sb; xorb (st (q, 3)) sb]
        + Nat.b2n sb
    ∧ st' (q, 6) = majority (st (q, 0)) (xorb (st (q, 2)) sb) sb
    ∧ (st' (q, 0) = st (q, 0) ∧ st' (q, 1) = st (q, 1) ∧ st' (q, 8) = sb)
    ∧ (st' (q, 2) = xorb (st (q, 2)) sb ∧ st' (q, 3) = xorb (st (q, 3)) sb)
    ∧ (st' (q, 9) = false ∧ st' (q, 10) = false ∧ st' (q, 11) = false)
    ∧ ∀ q', q'.1 ≠ q → st' q' = st q'.
Proof.
  intros q st. apply (TwoQubitALU_correct st); reflexivity.
Defined.


(** X11.  The two ALUs agree.  Take the N-qubit ALU on registers A, B, S, C
    of width 2, SB of width 1 and at least 3 ancillas (names distinct) and
    the two-qubit ALU, each from a state whose sum, carry and ancilla wires
    are 0.  When the two states hold the same operands (wires 0, 1 as A,
    2, 3 as B, 8 as SB), the two programs leave the same sum (wires 4, 5 as
    S), the same carries (6, 7 as C) and the same negated B. *)
Theorem TwoQubitALU_agrees_with_NQubitALU
    (rA rB rS rSB rC rAnc : QuantumRegister) (st st2 : State) :
  let q := TwoQubitALU_q in
  NoDup (reg_name <$> [rA; rB; rS; rSB; rC; rAnc]) →
  reg_size rA = 2 → reg_size rB = 2 → reg_size rS = 2 → reg_size rSB = 1 →
  reg_size rC = 2 → 3 ≤ reg_size rAnc →
  st (rAnc, 0) = false → st (rAnc, 1) = false → st (rAnc, 2) = false →
  read st rS = [false; false] → read st rC = [false; false] →
  st2 (q, 4) = false → st2 (q, 5) = false → st2 (q, 6) = false →
  st2 (q, 7) = false → st2 (q, 9) = false → st2 (q, 10) = false →
  st2 (q, 11) = false →
  read st rA = [st2 (q, 0); st2 (q, 1)] →
  read st rB = [st2 (q, 2); st2 (q, 3)] →
  st (rSB, 0) = st2 (q, 8) →
  ∃ self' p st' p2 st2',
    _build (__init__ rA rB rS rSB rC rAnc) = (Ok (), self')
    ∧ _data self' = Some p
    ∧ run p st = Some st'
    ∧ TwoQubitALU 12 = TwoQubitALU_circuit (Ok ()) p2
    ∧ run p2 st2 = Some st2'
    ∧ read st' rS = [st2' (q, 4); st2' (q, 5)]
    ∧ read st' rC = [st2' (q, 6); st2' (q, 7)]
    ∧ read st' rB = [st2' (q, 2); st2' (q, 3)].
Proof.
  intros q Hnames HA HB HS HSB HC HAnc H0 H1 H2 HS0 HC0
    G4 G5 G6 G7 G9 G10 G11 HrA HrB Hsb.
  assert (widths_ok rA rB rS rSB rC rAnc) as Hw by (unfold widths_ok; lia).
  unfold read in HS0, HC0, HrA, HrB. rewrite ?HA, ?HB, ?HS, ?HC in *.
  simpl in HS0, HC0, HrA, HrB.
  injection HS0 as HS00 HS01. injection HC0 as HC00 HC01.
  injection HrA as HA0 HA1. injection HrB as HB0 HB1.
  destruct (ALU_run rA rB rS rSB rC rAnc Hnames Hw st H0 H1 H2)
    as (self' & p & st' & Hb & Hd & Hrun & Hbits & HBn & _).
  { rewrite HA. intros i Hi. destruct i as [|[|i]]; [by split | by split | lia]. }
  destruct (TwoQubitALU_run st2 G4 G5 G6 G7 G9 G10 G11)
    as (p2 & st2' & Hp2 & Hrun2 & _ & (HB20 & HB21) & (HS20 & HS21)
        & (HC20 & HC21) & _).
  exists self', p, st', p2, st2'. do 5 (split; [done |]).
  unfold read. rewrite HS, HC, HB. simpl.
  destruct (Hbits 0) as [-> ->]; [lia |]. destruct (Hbits 1) as [-> ->]; [lia |].
  rewrite !HBn by lia.
  fold q in HB20, HB21, HS20, HS21, HC20, HC21.
  rewrite HB20, HB21, HS20, HS21, HC20, HC21.
  unfold sum_bit, operand_A, operand_B. simpl.
  by rewrite HA0, HA1, HB0, HB1, Hsb.
Qed.

Lemma TwoQubitALU_agrees_with_NQubitALU_witness :
  let q := TwoQubitALU_q in
  let rA := {| reg_size := 2; reg_name := "A" |} in
  let rB := {| reg_size := 2; reg_name := "B" |} in
  let rS := {| reg_size := 2; reg_name := "S" |} in
  let rSB := {| reg_size := 1; reg_name := "SB" |} in
  let rC := {| reg_size := 2; reg_name := "C" |} in
  let rAnc := {| reg_size := 3; reg_name := "Anc" |} in
  let st : State := <[(rA, 0) := true]> (<[(rB, 1) := true]> zero_state) in
  let st2 : State := <[(q, 0) := true]> (<[(q, 3) := true]> zero_state) in
  ∃ self' p st' p2 st2',
    _build (__init__ rA rB rS rSB rC rAnc) = (Ok (), self')
    ∧ _data self' = Some p
    ∧ run p st = Some st'
    ∧ TwoQubitALU 12 = TwoQubitALU_circuit (Ok ()) p2
    ∧ run p2 st2 = Some st2'
    ∧ read st' rS = [st2' (q, 4); st2' (q, 5)]
    ∧ read st' rC = [st2' (q, 6); st2' (q, 7)]
    ∧ read st' rB = [st2' (q, 2); st2' (q, 3)].
Proof.
  intros q rA rB rS rSB rC rAnc st st2.
  apply (TwoQubitALU_agrees_with_NQubitALU rA rB rS rSB rC rAnc st st2);
    first [solve_NoDup | reflexivity | simpl; lia].
Defined.

(** ** What [__main__] prints *)

Lemma substring_bits_string n m l :
  String.substring n m (bits_string l) = bits_string (take m (drop n l)).
Proof.
  revert n m. induction l as [|b l IH]; intros n m.
  - by destruct n, m.
  - destruct n as [|n].
    + destruct m as [|m]; [by destruct b |].
      pose proof (IH 0 m) as IH0. rewrite drop_0 in *.
      destruct b; simpl; by rewrite <- IH0.
    + pose proof (IH n m) as IHn. destruct b; simpl; by rewrite <- IHn.
Qed.

Lemma flat_regs_six rA rB rS rSB rC rAnc (st : State) :
  measure_all st (flat_regs [rA; rB; rS; rSB; rC; rAnc])
  = read st rA ++ read st rB ++ read st rS ++ read st rSB ++ read st rC
    ++ read st rAnc.
Proof.
  unfold measure_all, flat_regs, read.
  rewrite !bind_cons. change ([] ≫= _) with (@nil Qubit).
  rewrite app_nil_r, !fmap_app, <- !list_fmap_compose. done.
Qed.

(** X12.  What the driver prints is register S.  For registers A, B, S, C of
    width N, SB of width 1 and 3 ancillas, measured in the order of
    [flat_regs], the slice [(4+N):(4+2*N)] of the outcome's bit string is
    exactly register S of the final state, most significant bit first,
    whatever N. *)
Theorem main_prints_register_S
    (rA rB rS rSB rC rAnc : QuantumRegister) (N : nat) (st : State) :
  reg_size rA = N → reg_size rB = N → reg_size rS = N → reg_size rSB = 1 →
  reg_size rC = N → reg_size rAnc = 3 →
  main_printed_sum N st [rA; rB; rS; rSB; rC; rAnc]
  = bits_string (reverse (read st rS)).
Proof.
  intros HA HB HS HSB HC HAnc.
  unfold main_printed_sum, slice, counts_key.
  rewrite substring_bits_string, flat_regs_six. f_equal.
  assert (reverse (read st rA ++ read st rB ++ read st rS ++ read st rSB
                   ++ read st rC ++ read st rAnc)
          = (reverse (read st rAnc) ++ reverse (read st rC) ++ reverse (read st rSB))
            ++ reverse (read st rS) ++ (reverse (read st rB) ++ reverse (read st rA)))
    as -> by (by rewrite !reverse_app, <- !app_assoc).
  rewrite drop_app_length', take_app_length'; [done | |];
    rewrite ?length_app, !length_reverse; unfold read;
    rewrite !length_fmap, !length_seq; lia.
Qed.

Lemma main_prints_register_S_witness :
  let st : State := <[(main_registerS, 1) := true]> zero_state in
  main_printed_sum 3 st [main_registerA; main_registerB; main_registerS;
                         main_registerSB; main_registerC; main_registerAnc]
  = bits_string (reverse (read st main_registerS)).
Proof.
  intros st.
  apply (main_prints_register_S main_registerA main_registerB main_registerS
           main_registerSB main_registerC main_registerAnc 3 st); reflexivity.
Defined.

(** ** Gates and their definitions *)

Lemma bind_defined g qs :
  length qs = num_qubits g → is_Some (mapM (bind_op qs) (definition g)).
Proof.
  destruct g; simpl; intros Hlen;
    do 9 (destruct qs as [|? qs]; try done); by eexists.
Qed.

Lemma decompose_snoc d i :
  is_Some (decompose d) → is_Some (decompose_instruction i) →
  is_Some (decompose (d ++ [i])).
Proof.
  intros [ops Hd] [o Hi]. exists (ops ++ (o ++ [])).
  apply decompose_app; [done |]. by apply decompose_cons.
Qed.

Lemma length_zip_arg (qargs : list (list Qubit)) n k :
  forallb (λ a, length a =? n) qargs = true → k < n →
  length (omap (λ a, a !! k) qargs) = length qargs.
Proof.
  intros Hall Hk. induction qargs as [|a qargs IH]; [done |].
  simpl in Hall. apply andb_true_iff in Hall as [Ha Hall].
  apply Nat.eqb_eq in Ha. simpl.
  destruct (lookup_lt_is_Some_2 a k ltac:(lia)) as [x ->]. simpl.
  f_equal. by apply IH.
Qed.

(** X13.  The gate definitions fit the declared arities.  Whatever gate and
    arguments [append] is given, and whether it returns or raises, every gate
    it has appended can be expanded into its primitive operations: circuit
    data that could be executed before the call can be executed after it. *)
Theorem append_keeps_executable
    (g : Gate) (qargs : list QArg) (d d' : list Instruction) (r : Result unit) :
  append g qargs d = (r, d') →
  is_Some (decompose d) →
  is_Some (decompose d').
Proof.
  unfold append, broadcast_arguments.
  destruct (negb _) eqn:Hlen; [by intros [= _ <-] |].
  destruct (existsb _ _); [by intros [= _ <-] |].
  set (n := length (default [] (head (qbit_argument_conversion <$> qargs)))).
  destruct (forallb _ _) eqn:Hall; [| by intros [= _ <-]].
  apply negb_false_iff, Nat.eqb_eq in Hlen.
  assert (Forall (λ qs, length qs = num_qubits g)
            (zip_args n (qbit_argument_conversion <$> qargs))) as Hqs.
  { unfold zip_args. apply Forall_fmap, Forall_forall. intros k Hk%elem_of_seq.
    unfold compose.
    rewrite (length_zip_arg (qbit_argument_conversion <$> qargs) n k Hall ltac:(lia)).
    done. }
  revert d. induction Hqs as [|qs qss Hq _ IH]; intros d; simpl.
  { by intros [= _ <-]. }
  unfold mbind, QC_bind, _check_dups.
  case_bool_decide; simpl; [| by intros [= _ <-]].
  intros Hrun Hd. eapply IH; [exact Hrun |].
  apply decompose_snoc; [done |]. by apply bind_defined.
Qed.

Lemma append_keeps_executable_witness :
  let q := define_register FullAdder in
  is_Some (decompose
             (append FullAdder [QBit (q, 0); QBit (q, 1); QBit (q, 2); QBit (q, 3);
                                QBit (q, 4); QBit (q, 5); QBit (q, 6); QBit (q, 7)]
                     []).2).
Proof.
  intros q.
  apply (append_keeps_executable FullAdder
           [QBit (q, 0); QBit (q, 1); QBit (q, 2); QBit (q, 3);
            QBit (q, 4); QBit (q, 5); QBit (q, 6); QBit (q, 7)] [] _ (Ok ()));
    [reflexivity | by eexists].
Defined.
